(** * Paw: a breadth-first crawler that renders pages to markdown

    Shallow embedding of [paw/paw.py] (class [Paw]) and the properties its
    specification states about it.

    Conventions of the embedding.
    - A Python [str] is a [string]: a list of characters with code points
      below 256.  [int] is [Z].
    - [Set[str]] is a [gset string]; the insertion-ordered [Dict[str, str]]
      is an association list updated in place by [dict_setitem]; the
      [deque] is a list whose head is its left end.
    - Python exceptions are values of [Exc]; code that may raise runs in the
      state-and-exception monad [M]: a raised exception keeps the state
      reached so far, as mutations of Python objects survive a [raise].
    - Everything outside the repository (the network behind [requests.get],
      the HTML parser, the markdown renderer, [urllib.parse], the completion
      service) is a [Variable] of the section the code is embedded in.
    - The world is the list of the effects so far, oldest first: spinner
      texts, [visited.add]s, requests with their outcome, completion calls.
      The network and the completion service answer as functions of it.
    - The [while] loop of [crawl] is [crawl_iter] repeated: [crawl_run n] is
      the state after [n] iterations, [crawl_loop fuel] the loop cut off
      after [fuel] iterations; the loop is shown to end for every input. *)

From Stdlib Require Import ZArith Lia Ascii String List.
From stdpp Require Import base decidable option list strings gmap sorting.

Local Open Scope Z_scope.

(** ** Python string operations used by the code *)

Module PyStr.

Definition LF : ascii := "010"%char.
Definition SP : ascii := " "%char.

(** The line feed as a one-character string. *)
Definition nl : string := String LF "".

(** [str.startswith(p)]. *)
Definition startswith (p s : string) : bool := String.prefix p s.

(** [sub in s]: [sub] occurs in [s] as a substring. *)
Fixpoint str_in (sub s : string) : bool :=
  String.prefix sub s ||
  match s with
  | EmptyString => false
  | String _ s' => str_in sub s'
  end.

(** [s.split(c)[0]] for a one-character separator [c]: the part of [s] before
    the first [c], all of [s] when there is none. *)
Fixpoint split_head (c : ascii) (s : string) : string :=
  match s with
  | EmptyString => EmptyString
  | String a s' => if Ascii.eqb a c then EmptyString else String a (split_head c s')
  end.

(** [s.replace(old, new)] for a non-empty [old]: the non-overlapping
    occurrences of [old] are replaced from left to right.  [skip] counts the
    characters of an occurrence just replaced that are still to be consumed. *)
Fixpoint replace_from (skip : nat) (old new s : string) : string :=
  match s with
  | EmptyString => EmptyString
  | String a s' =>
      match skip with
      | S k => replace_from k old new s'
      | O =>
          if String.prefix old s
          then new +:+ replace_from (Nat.pred (String.length old)) old new s'
          else String a (replace_from O old new s')
      end
  end.

Definition replace (old new s : string) : string := replace_from O old new s.

(** [str.isspace] on one character, for code points below 256: the ASCII
    white space and separators (9-13, 28-32), NEL (133) and NBSP (160). *)
Definition isspace (a : ascii) : bool :=
  let n := nat_of_ascii a in
  ((9 <=? n) && (n <=? 13) || (28 <=? n) && (n <=? 32) || (n =? 133) || (n =? 160))%nat.
Arguments isspace : simpl never.

Fixpoint lstrip (s : string) : string :=
  match s with
  | EmptyString => EmptyString
  | String a s' => if isspace a then lstrip s' else s
  end.

Fixpoint rstrip (s : string) : string :=
  match s with
  | EmptyString => EmptyString
  | String a s' =>
      match rstrip s' with
      | EmptyString => if isspace a then EmptyString else String a EmptyString
      | r => String a r
      end
  end.

(** [str.strip()]. *)
Definition strip (s : string) : string := rstrip (lstrip s).

(** [n] copies of the character [a]. *)
Fixpoint repeat_char (a : ascii) (n : nat) : string :=
  match n with
  | O => EmptyString
  | S k => String a (repeat_char a k)
  end.

(** [re.sub(r"\n{3,}", "\n\n", s)]: every maximal run of three or more line
    feeds becomes two.  [run] is the length of the run of line feeds read
    just before [s] and not yet written. *)
Definition flush_newlines (run : nat) : string :=
  if (3 <=? run)%nat then repeat_char LF 2 else repeat_char LF run.

Fixpoint sub_newlines_from (run : nat) (s : string) : string :=
  match s with
  | EmptyString => flush_newlines run
  | String a s' =>
      if Ascii.eqb a LF then sub_newlines_from (S run) s'
      else flush_newlines run +:+ String a (sub_newlines_from O s')
  end.

Definition sub_newlines (s : string) : string := sub_newlines_from O s.

(** [re.sub(r" +\n", "\n", s)]: a run of spaces that ends at a line feed is
    deleted.  [spaces] is the length of the run of spaces read just before
    [s] and not yet written. *)
Fixpoint sub_trailing_from (spaces : nat) (s : string) : string :=
  match s with
  | EmptyString => repeat_char SP spaces
  | String a s' =>
      if Ascii.eqb a SP then sub_trailing_from (S spaces) s'
      else if Ascii.eqb a LF then String LF (sub_trailing_from O s')
      else repeat_char SP spaces +:+ String a (sub_trailing_from O s')
  end.

Definition sub_trailing (s : string) : string := sub_trailing_from O s.

(** [sep.join(l)]. *)
Fixpoint join (sep : string) (l : list string) : string :=
  match l with
  | [] => ""
  | [x] => x
  | x :: l' => x +:+ sep +:+ join sep l'
  end.

End PyStr.

Import PyStr.

(** ** [Paw._clean_markdown] *)

Definition _clean_markdown (markdown : string) : string :=
  let markdown := sub_newlines markdown in
  let markdown := sub_trailing markdown in
  strip markdown.

(** ** Exceptions, results and the state-and-exception monad *)

(** The exception classes the code raises or catches.  [RequestException]
    stands for [requests.exceptions.RequestException] and its subclasses
    ([HTTPError] among them), [OtherException] for any other subclass of
    [Exception] a library may raise.  Each carries its message, [str(e)]. *)
Inductive Exc : Type :=
  | ValueError (msg : string)
  | ConnectionError (msg : string)
  | RequestException (msg : string)
  | OtherException (msg : string).

Definition str_exc (e : Exc) : string :=
  match e with
  | ValueError m | ConnectionError m | RequestException m | OtherException m => m
  end.

Inductive Res (A : Type) : Type :=
  | Ok (a : A)
  | Raise (e : Exc).
Arguments Ok {A} a.
Arguments Raise {A} e.

#[export] Instance Res_ret : MRet Res := fun _ a => Ok a.
#[export] Instance Res_bind : MBind Res := fun _ _ f m =>
  match m with
  | Ok a => f a
  | Raise e => Raise e
  end.

(** A computation over a state [S]: it returns a value or raises, and in
    both cases leaves a state. *)
Definition M (S A : Type) : Type := S -> Res A * S.

#[export] Instance M_ret {S} : MRet (M S) := fun _ a s => (Ok a, s).
#[export] Instance M_bind {S} : MBind (M S) := fun _ _ f m s =>
  match m s with
  | (Ok a, s') => f a s'
  | (Raise e, s') => (Raise e, s')
  end.

Definition raise {S A} (e : Exc) : M S A := fun s => (Raise e, s).
Definition gets {S A} (f : S -> A) : M S A := fun s => (Ok (f s), s).
Definition modify {S} (f : S -> S) : M S unit := fun s => (Ok tt, f s).
Definition of_res {S A} (r : Res A) : M S A := fun s => (r, s).

(** [try: m except Exception as e: h e]. *)
Definition try_except {S A} (m : M S A) (h : Exc -> M S A) : M S A := fun s =>
  match m s with
  | (Ok a, s') => (Ok a, s')
  | (Raise e, s') => h e s'
  end.

(** ** The outside world *)

(** What the code reads of a [requests.Response]: whether
    [raise_for_status()] raises (and with which message), the
    [Content-Type] header ([""] when absent) and the body. *)
Record Response : Type := mkResponse {
  http_error : option string;
  content_type : string;
  text : string
}.

(** The effects of a run, in the order they happen. *)
Inductive Event : Type :=
  | EvCrawling (url : string) (depth : Z)    (* spinner "Crawling: url (Depth: depth)" *)
  | EvVisited (url : string)                 (* visited.add(url) *)
  | EvGet (url : string) (r : Res Response)  (* requests.get(url, ...) and its outcome *)
  | EvCompletion (document : string).        (* client.beta.chat.completions.parse(...) *)

Definition World : Type := list Event.

(** A fetch failed when [requests.get] raised or the status was an error. *)
Definition fetch_failed (r : Res Response) : bool :=
  match r with
  | Raise _ => true
  | Ok resp => bool_decide (is_Some (http_error resp))
  end.

(** The outcomes of the fetches of [u] in a history, oldest first. *)
Fixpoint fetches_of (u : string) (w : World) : list (Res Response) :=
  match w with
  | [] => []
  | EvGet url r :: w' => if String.eqb url u then r :: fetches_of u w' else fetches_of u w'
  | _ :: w' => fetches_of u w'
  end.

(** How often the crawl loop started processing [u]. *)
Fixpoint crawlings_of (u : string) (w : World) : list Z :=
  match w with
  | [] => []
  | EvCrawling url d :: w' => if String.eqb url u then d :: crawlings_of u w' else crawlings_of u w'
  | _ :: w' => crawlings_of u w'
  end.

Definition is_completion (e : Event) : bool :=
  match e with EvCompletion _ => true | _ => false end.

(** ** Insertion-ordered dictionary *)

(** [d[k] = v]: an existing key keeps its place, a new key goes last. *)
Fixpoint dict_setitem (k v : string) (d : list (string * string)) : list (string * string) :=
  match d with
  | [] => [(k, v)]
  | (k', v') :: d' => if String.eqb k' k then (k, v) :: d' else (k', v') :: dict_setitem k v d'
  end.

(** ** The state of one [crawl] call *)

Record CrawlSt : Type := mkCrawlSt {
  queue : list (string * Z);
  visited : gset string;
  content_dict : list (string * string);
  world : World
}.

Definition set_queue (q : list (string * Z)) (st : CrawlSt) : CrawlSt :=
  mkCrawlSt q (visited st) (content_dict st) (world st).
Definition visited_add (url : string) (st : CrawlSt) : CrawlSt :=
  mkCrawlSt (queue st) ({[ url ]} ∪ visited st) (content_dict st)
            (world st ++ [EvVisited url]).
Definition content_dict_set (url md : string) (st : CrawlSt) : CrawlSt :=
  mkCrawlSt (queue st) (visited st) (dict_setitem url md (content_dict st)) (world st).
Definition queue_append (e : string * Z) (st : CrawlSt) : CrawlSt :=
  mkCrawlSt (queue st ++ [e]) (visited st) (content_dict st) (world st).
Definition emit (e : Event) (w : World) : World := w ++ [e].

(** Run a computation on the world inside a crawl. *)
Definition in_world {A} (m : M World A) : M CrawlSt A := fun st =>
  let '(r, w) := m (world st) in
  (r, mkCrawlSt (queue st) (visited st) (content_dict st) w).

(** What [crawl] returns: the joined markdown, or the dictionary. *)
Inductive CrawlResult : Type :=
  | Markdown (s : string)
  | Json (d : list (string * string)).

(** What parsing and rendering a body gives: the markdown, or the message of
    the exception the parser or the converter raised (an exception of theirs,
    so never a [RequestException]). *)
Inductive Rendering : Type :=
  | Rendered (markdown : string)
  | NotRendered (msg : string).

(** ** The class [Paw] *)

Section Paw.

(** The network: what [requests.get(url, headers=..., timeout=10)] answers,
    given everything that happened before the request. *)
Variable net : World -> string -> Res Response.

(** [BeautifulSoup(text, "html.parser").find_all("a", href=True)]: the
    [href] values of the anchors of a document, in document order. *)
Variable find_all_a_href : string -> list string.

(** [BeautifulSoup(text, "html.parser")] with the tags of [TAG_TO_REMOVE]
    decomposed, rendered by [self._converter.handle(str(soup))].  The parser
    rejects some markup and the converter may raise; and the one converter of
    a [Paw] object keeps state from call to call, so that, like the network,
    it answers as a function of everything that happened before. *)
Variable html2text_handle : World -> string -> Rendering.

(** [urllib.parse.urljoin] and the [netloc] of [urllib.parse.urlparse]; both
    raise [ValueError] on some malformed URLs. *)
Variable urljoin : string -> string -> Res string.
Variable urlparse_netloc : string -> Res string.

(** *** [Paw._same_domain] *)

Definition _same_domain (url base_url : string) : Res bool :=
  url_domain ← urlparse_netloc url;
  base_domain ← urlparse_netloc base_url;
  (* Remove 'www.' prefix for comparison *)
  let url_domain := replace "www." "" url_domain in
  let base_domain := replace "www." "" base_domain in
  mret (String.eqb url_domain base_domain).

(** *** [Paw._extract_links] *)

(** The loop over the anchors; [links] is the list built so far. *)
Fixpoint _extract_links_loop (links hrefs : list string) (base_url : string)
  : Res (list string) :=
  match hrefs with
  | [] => mret links
  | href :: hrefs' =>
      (* Skip empty href or link to fragment *)
      if String.eqb href "" || startswith "#" href
      then _extract_links_loop links hrefs' base_url
      else
        absolute_url ← urljoin base_url href;
        let absolute_url := split_head "?" (split_head "#" absolute_url) in
        same ← _same_domain absolute_url base_url;
        _extract_links_loop (if same : bool then links ++ [absolute_url] else links)
                            hrefs' base_url
  end.

Definition _extract_links (soup : string) (base_url : string) : Res (list string) :=
  _extract_links_loop [] (find_all_a_href soup) base_url.

(** *** [Paw.scrape] *)

Definition requests_get (url : string) : M World Response := fun w =>
  let r := net w url in (r, emit (EvGet url r) w).

Definition raise_for_status {S} (response : Response) : M S unit :=
  match http_error response with
  | Some msg => raise (RequestException msg)
  | None => mret tt
  end.

Definition valid_url (url : string) : bool :=
  startswith "http://" url || startswith "https://" url.

(** Parse the body, remove the tags, convert to markdown. *)
Definition converter_handle (body : string) : M World string := fun w =>
  match html2text_handle w body with
  | Rendered markdown => (Ok markdown, w)
  | NotRendered msg => (Raise (OtherException msg), w)
  end.

Definition scrape (url : string) : M World string :=
  try_except
    ((* Validate URL *)
     if negb (valid_url url)
     then raise (ValueError ("Invalid URL: " +:+ url))
     else
       (* Fetch webpage content *)
       response ← requests_get url;
       raise_for_status response;;
       (* Check if content is HTML *)
       if negb (str_in "text/html" (content_type response))
       then raise (ValueError ("URL does not contain HTML content: " +:+ url))
       else
         (* Parse HTML, remove unnecessary tags, convert to markdown *)
         markdown ← converter_handle (text response);
         (* Clean up the markdown *)
         mret (_clean_markdown markdown))
    (fun e =>
       match e with
       | RequestException m =>
           raise (ConnectionError ("Error fetching URL " +:+ url +:+ ": " +:+ m))
       | _ => raise (ValueError ("Error processing " +:+ url +:+ ": " +:+ str_exc e))
       end).

(** *** [Paw.crawl] *)

Section crawl.

Variable max_depth : Z.

(** [for link in links: if link not in visited: queue.append((link, depth + 1))] *)
Fixpoint enqueue_links (links : list string) (depth : Z) : M CrawlSt unit :=
  match links with
  | [] => mret tt
  | link :: links' =>
      seen ← gets visited;
      (if bool_decide (link ∈ seen) then mret tt
       else modify (queue_append (link, depth + 1)));;
      enqueue_links links' depth
  end.

(** The [try] statement of the loop body, for a dequeued entry that was not
    skipped.  A [continue] ends the body.  [time.sleep] and the spinner's
    final mark change nothing of the state and are left out. *)
Definition crawl_body (url : string) (depth : Z) : M CrawlSt unit :=
  try_except
    (in_world (modify (emit (EvCrawling url depth)));;
     (* Mark URL as visited *)
     modify (visited_add url);;
     (* Fetch and parse webpage *)
     response ← in_world (requests_get url);
     raise_for_status response;;
     (* Check if content is HTML *)
     if negb (str_in "text/html" (content_type response))
     then mret tt
     else
       let soup := text response in
       (* Convert to markdown/json and store *)
       md ← in_world (scrape url);
       modify (content_dict_set url md);;
       (* Extract links for the next level if not at max depth *)
       if depth <? max_depth
       then
         links ← of_res (_extract_links soup url);
         enqueue_links links depth
       else mret tt)
    (fun _ => mret tt).

(** One iteration of [while queue:]; nothing happens on an empty queue. *)
Definition crawl_iter (st : CrawlSt) : CrawlSt :=
  match queue st with
  | [] => st
  | (url, depth) :: rest =>
      let st := set_queue rest st in
      (* Skip if URL already visited or depth exceeds max_depth *)
      if bool_decide (url ∈ visited st) || (max_depth <? depth)
      then st
      else snd (crawl_body url depth st)
  end.

(** The state after [n] iterations. *)
Fixpoint crawl_run (n : nat) (st : CrawlSt) : CrawlSt :=
  match n with
  | O => st
  | S k => crawl_run k (crawl_iter st)
  end.

(** [while queue: ...] with a bound on the number of iterations: [None]
    when the bound is reached before the queue is empty. *)
Fixpoint crawl_loop (fuel : nat) (st : CrawlSt) : option CrawlSt :=
  match fuel with
  | O => None
  | S k =>
      match queue st with
      | [] => Some st
      | _ :: _ => crawl_loop k (crawl_iter st)
      end
  end.

Definition crawl_init (base_url : string) (w : World) : CrawlSt :=
  mkCrawlSt [(base_url, 0)] ∅ [] w.

Definition crawl_result (format_type : string) (st : CrawlSt) : CrawlResult :=
  if String.eqb format_type "markdown"
  then
    let content_list :=
      map (fun '(url, content) => "URL: " +:+ url +:+ nl +:+ nl +:+ content)
          (content_dict st) in
    Markdown (join (nl +:+ nl +:+ "---" +:+ nl +:+ nl) content_list)
  else Json (content_dict st).

(** [crawl(base_url, max_depth, format_type)], run for at most [fuel]
    iterations of its loop. *)
Definition crawl (base_url format_type : string) (fuel : nat) (w : World)
  : option (Res CrawlResult * World) :=
  (* Validate base URL *)
  if negb (valid_url base_url)
  then Some (Raise (ValueError ("Invalid URL: " +:+ base_url)), w)
  else
    match crawl_loop fuel (crawl_init base_url w) with
    | None => None
    | Some st => Some (Ok (crawl_result format_type st), world st)
    end.

End crawl.

(** *** [Paw.extract] *)

Section extract.

(** The schema class handed in as [output_format], the values it builds, the
    client object and Python's [float]. *)
Variables Schema Value Client float : Type.

(** [os.environ.get("OPENAI_API_KEY")]. *)
Variable environ_OPENAI_API_KEY : option string.

(** [OpenAI(api_key=...)]: building the client; contacts nothing. *)
Variable OpenAI : option string -> Res Client.

(** [client.beta.chat.completions.parse(model, messages, temperature,
    response_format)], answering with [response.choices[0].message.content]:
    the one call to the completion service. *)
Variable completions_parse :
  World -> Client -> string -> string -> string -> float -> Schema -> Res string.

(** [output_format( **json.loads(content))]. *)
Variable output_format_build : Schema -> string -> Res Value.

(** [a or b] on optional strings: [None] and the empty string are falsy. *)
Definition py_or (a b : option string) : option string :=
  match a with
  | Some s => if String.eqb s "" then b else Some s
  | None => b
  end.

Definition chat_completions_parse (client : Client) (model system user : string)
    (temperature : float) (response_format : Schema) : M World string := fun w =>
  (completions_parse w client model system user temperature response_format,
   emit (EvCompletion user) w).

(** [extract(base_url, output_format, api_key, temperature, model,
    max_depth)], its crawl run for at most [fuel] iterations. *)
Definition extract (base_url : string) (output_format : Schema)
    (api_key : option string) (temperature : float) (model : string)
    (max_depth : Z) (fuel : nat) (w : World) : option (Res Value * World) :=
  let api_key := py_or api_key environ_OPENAI_API_KEY in
  match OpenAI api_key with
  | Raise e => Some (Raise e, w)
  | Ok client =>
      match crawl max_depth base_url "markdown" fuel w with
      | None => None
      | Some (Raise e, w) => Some (Raise e, w)
      | Some (Ok (Json _), w) =>
          Some (Raise (ValueError "Content markdown must be a string"), w)
      | Some (Ok (Markdown content_markdown), w) =>
          if String.eqb (strip content_markdown) ""
          then Some (Raise (ValueError "Content markdown is empty"), w)
          else
            Some ((content ← chat_completions_parse client model
                     "Extract the content from the following markdown"
                     content_markdown temperature output_format;
                   of_res (output_format_build output_format content)) w)
      end
  end.

End extract.

End Paw.

(** ** A model of [urllib.parse] and a small site to run the code on *)

Module Urllib.

Definition is_alpha (a : ascii) : bool :=
  let n := nat_of_ascii a in
  ((65 <=? n) && (n <=? 90) || (97 <=? n) && (n <=? 122))%nat.

Definition is_digit (a : ascii) : bool :=
  let n := nat_of_ascii a in ((48 <=? n) && (n <=? 57))%nat.

(** The characters a scheme is made of: letters, digits, [+], [-] and [.]. *)
Definition scheme_char (a : ascii) : bool :=
  is_alpha a || is_digit a
  || Ascii.eqb a "+" || Ascii.eqb a "-" || Ascii.eqb a ".".

(** What follows the first [:] when only scheme characters precede it. *)
Fixpoint after_colon (s : string) : option string :=
  match s with
  | EmptyString => None
  | String a s' =>
      if Ascii.eqb a ":" then Some s'
      else if scheme_char a then after_colon s' else None
  end.

(** [url] without its scheme and the colon, when it has a scheme. *)
Definition drop_scheme (url : string) : string :=
  match url with
  | EmptyString => url
  | String a _ =>
      if is_alpha a
      then match after_colon url with Some rest => rest | None => url end
      else url
  end.

(** The part of [s] before the first of [/], [?] and [#]. *)
Fixpoint until_delim (s : string) : string :=
  match s with
  | EmptyString => EmptyString
  | String a s' =>
      if Ascii.eqb a "/" || Ascii.eqb a "?" || Ascii.eqb a "#"
      then EmptyString else String a (until_delim s')
  end.

(** [urlparse(url).netloc] as [urlsplit] computes it for a URL of ASCII
    characters without brackets, tabs and line breaks: after the scheme, what
    lies between a leading [//] and the first of [/], [?] and [#]. *)
Definition netloc (url : string) : string :=
  match drop_scheme url with
  | String "/" (String "/" rest) => until_delim rest
  | _ => EmptyString
  end.

(** [urljoin(base, href)] for an [href] that is itself an absolute URL with
    a host and no dot segments: the [href]. *)
Definition urljoin_absolute (base href : string) : Res string := Ok href.

End Urllib.

(** The registrable domain as the specification words it: the host with a
    leading [www.] ignored. *)
Definition registrable_domain (host : string) : string :=
  match host with
  | String "w" (String "w" (String "w" (String "." rest))) => rest
  | _ => host
  end.

(** A site of two pages that link to each other; the first also links to
    the second twice and to itself.  It also serves one document that is not
    HTML.  Any other URL does not answer. *)
Module Site.

Definition root : string := "https://site.test/".
Definition about : string := "https://site.test/about".
Definition paper : string := "https://site.test/paper.pdf".

Definition page (body : string) : Res Response :=
  Ok (mkResponse None "text/html; charset=utf-8" body).

Definition net (w : World) (url : string) : Res Response :=
  if String.eqb url root then page "ROOT"
  else if String.eqb url about then page "ABOUT"
  else if String.eqb url paper then Ok (mkResponse None "application/pdf" "%PDF")
  else Raise (RequestException "no route to host").

Definition find_all_a_href (body : string) : list string :=
  if String.eqb body "ROOT" then [about; root; about]
  else if String.eqb body "ABOUT" then [root]
  else [].

Definition html2text_handle (w : World) (body : string) : Rendering := Rendered body.

Definition urlparse_netloc (url : string) : Res string := Ok (Urllib.netloc url).

Definition run (max_depth : Z) (n : nat) : CrawlSt :=
  crawl_run net find_all_a_href html2text_handle Urllib.urljoin_absolute
            urlparse_netloc max_depth n (crawl_init root []).

(** A client that needs a key, a completion service that answers every
    request with the same text, and a schema whose values are the texts
    themselves. *)
Definition OpenAI (api_key : option string) : Res unit :=
  match api_key with
  | Some _ => Ok tt
  | None => Raise (OtherException "The api_key client option must be set")
  end.

Definition completions_parse (w : World) (client : unit)
    (model system user : string) (temperature : unit) (schema : unit) : Res string :=
  Ok "{}".

Definition output_format_build (schema : unit) (content : string) : Res string :=
  Ok content.

End Site.

(** ** What the properties are stated with *)

(** The two patterns of [_clean_markdown]: a space before a line feed, and
    three line feeds. *)
Definition space_newline : string := String SP nl.
Definition three_newlines : string := repeat_char LF 3.

Definition starts_with_newline (s : string) : bool :=
  match s with
  | String a _ => Ascii.eqb a LF
  | EmptyString => false
  end.

(** A text in which a line of one space stands before an empty line. *)
Definition spaced_blank_lines : string :=
  "a" +:+ nl +:+ " " +:+ nl +:+ nl +:+ "b".

(** The number of levels below a queue entry: how often a link of a link
    ... of its page can still be enqueued. *)
Definition entry_level (max_depth : Z) (e : string * Z) : nat :=
  Z.to_nat (max_depth - e.2).

(** No URL was fetched twice in [w], the world left by a call that started
    in the empty world. *)
Definition at_most_one_fetch (w : World) : Prop :=
  ∀ u, (length (fetches_of u w) ≤ 1)%nat.

(** Each of [links], found at [depth], is on the queue of [st] at
    [depth + 1]. *)
Definition every_link_enqueued (links : list string) (depth : Z) (st : CrawlSt) : Prop :=
  ∀ link, link ∈ links → (link, depth + 1) ∈ queue st.

(** The entries the [for] loop appends for [links] found at [depth]. *)
Definition new_entries (seen : gset string) (links : list string) (depth : Z)
  : list (string * Z) :=
  (fun link => (link, depth + 1)) <$> filter (fun link => link ∉ seen) links.

(** The world when the loop body, started in [w], sends its request. *)
Definition at_request (w : World) (url : string) (depth : Z) : World :=
  w ++ [EvCrawling url depth; EvVisited url].

(** The fetches of one URL in one [crawl]: none, one, or a successful one
    followed by the one of [scrape]. *)
Definition fetch_shape (l : list (Res Response)) : Prop :=
  l = [] ∨ (∃ r, l = [r]) ∨ (∃ r1 r2, l = [r1; r2] ∧ fetch_failed r1 = false).

(** Every request of a history comes after the [visited.add] of its URL. *)
Definition marked_before_fetch (tr : World) : Prop :=
  ∀ pre u r post, tr = pre ++ EvGet u r :: post → EvVisited u ∈ pre.

(** A failed fetch is the last fetch of its URL. *)
Definition never_retried (tr : World) : Prop :=
  ∀ u pre r post,
    fetches_of u tr = pre ++ r :: post → fetch_failed r = true → post = [].

(** The facts that hold of the events [tr] of a [crawl] call and of its
    state [st] after any number of iterations. *)
Record crawl_inv (max_depth : Z) (st : CrawlSt) (tr : World) : Prop := {
  inv_unvisited : ∀ u, u ∉ visited st → fetches_of u tr = [] ∧ crawlings_of u tr = [];
  inv_fetches : ∀ u, fetch_shape (fetches_of u tr);
  inv_crawlings : ∀ u, (length (crawlings_of u tr) ≤ 1)%nat;
  inv_marked : marked_before_fetch tr;
  inv_depth : ∀ u k, k ∈ crawlings_of u tr → k ≤ max_depth;
  inv_stored : ∀ u md, (u, md) ∈ content_dict st → crawlings_of u tr ≠ [];
  inv_quiet : Forall (fun e => is_completion e = false) tr
}.


(** ** What the further properties are stated with *)

(** [c in s] for a character [c]. *)
Fixpoint char_in (c : ascii) (s : string) : bool :=
  match s with
  | EmptyString => false
  | String a s' => Ascii.eqb a c || char_in c s'
  end.

(** [s.isspace()] or [s == ""]: every character of [s] is white space. *)
Fixpoint all_space (s : string) : bool :=
  match s with
  | EmptyString => true
  | String a s' => isspace a && all_space s'
  end.

(** A response that passes both checks of the code: the status is no error
    and the content type names HTML. *)
Definition page_ok (resp : Response) : bool :=
  match http_error resp with
  | None => str_in "text/html" (content_type resp)
  | Some _ => false
  end.

(** An anchor [_extract_links] does not skip. *)
Definition kept_href (href : string) : bool :=
  negb (String.eqb href "" || startswith "#" href).

(** An [href] as [_extract_links] resolves it, when [urljoin] does not
    raise, and the test it then puts the link to. *)
Definition resolve_href (urljoin : string -> string -> Res string)
    (base_url href : string) : option string :=
  match urljoin base_url href with
  | Ok absolute_url => Some (split_head "?" (split_head "#" absolute_url))
  | Raise _ => None
  end.

Definition passes_same_domain (urlparse_netloc : string -> Res string)
    (base_url link : string) : bool :=
  match _same_domain urlparse_netloc link base_url with
  | Ok true => true
  | _ => false
  end.

(** The URLs and the depths of the queue entries the loop took up, oldest
    first. *)
Fixpoint crawl_urls (w : World) : list string :=
  match w with
  | [] => []
  | EvCrawling url _ :: w' => url :: crawl_urls w'
  | _ :: w' => crawl_urls w'
  end.

Fixpoint crawl_depths (w : World) : list Z :=
  match w with
  | [] => []
  | EvCrawling _ depth :: w' => depth :: crawl_depths w'
  | _ :: w' => crawl_depths w'
  end.

(** The documents sent to the completion service, oldest first. *)
Fixpoint completions_of (w : World) : list string :=
  match w with
  | [] => []
  | EvCompletion document :: w' => document :: completions_of w'
  | _ :: w' => completions_of w'
  end.

(** * Properties *)

(** ** Strings *)

Lemma prefix_app p u v : String.prefix p u = true → String.prefix p (u +:+ v) = true.
Proof.
  revert u. induction p as [|a p IH]; intros u.
  - intros _. by destruct (u +:+ v).
  - destruct u as [|b u]; [done|]. simpl.
    destruct (ascii_dec a b); [apply IH|done].
Qed.

Lemma append_cons a u v : String a u +:+ v = String a (u +:+ v).
Proof. done. Qed.

Lemma append_nil_r s : s +:+ "" = s.
Proof. induction s as [|a s IH]; [done|]. by rewrite append_cons, IH. Qed.

Lemma str_in_cons p a s :
  str_in p (String a s) = String.prefix p (String a s) || str_in p s.
Proof. done. Qed.

Lemma str_in_nil_r p v : str_in p v = false → str_in p "" = false.
Proof. destruct p; [by destruct v|done]. Qed.

(** A pattern absent from a text is absent from its prefixes and suffixes. *)
Lemma str_in_app_l p u v : str_in p (u +:+ v) = false → str_in p u = false.
Proof.
  induction u as [|a u IH].
  - apply str_in_nil_r.
  - rewrite append_cons, !str_in_cons. intros [Hp Hin]%orb_false_elim.
    apply orb_false_intro; [|by apply IH].
    destruct (String.prefix p (String a u)) eqn:Hpre; [|done].
    apply (prefix_app _ _ v) in Hpre. rewrite append_cons in Hpre. congruence.
Qed.

Lemma str_in_app_r p u v : str_in p (u +:+ v) = false → str_in p v = false.
Proof.
  induction u as [|a u IH]; [done|].
  rewrite append_cons, str_in_cons. intros [_ Hin]%orb_false_elim. by apply IH.
Qed.

Lemma lstrip_suffix s : ∃ u, s = u +:+ lstrip s.
Proof.
  induction s as [|a s [u IH]]; [by exists ""|]. simpl.
  destruct (isspace a); [|by exists ""].
  exists (String a u). rewrite append_cons. by f_equal.
Qed.

Lemma rstrip_prefix s : ∃ u, s = rstrip s +:+ u.
Proof.
  induction s as [|a s [u IH]]; [by exists ""|]. simpl.
  destruct (rstrip s) as [|b r].
  - destruct (isspace a); [by eexists|]. by exists s.
  - exists u. rewrite append_cons. by f_equal.
Qed.

Lemma strip_keeps_absent p s : str_in p s = false → str_in p (strip s) = false.
Proof.
  intros H. unfold strip.
  destruct (lstrip_suffix s) as [u Hu]. rewrite Hu in H. apply str_in_app_r in H.
  destruct (rstrip_prefix (lstrip s)) as [v Hv]. rewrite Hv in H.
  by apply str_in_app_l in H.
Qed.

Lemma rstrip_rstrip s : rstrip (rstrip s) = rstrip s.
Proof.
  induction s as [|a s IH]; [done|]. cbn.
  destruct (rstrip s) as [|b r] eqn:Hr.
  - destruct (isspace a) eqn:Ha; cbn; [done|]. by rewrite Ha.
  - cbn [rstrip] in *. by rewrite IH.
Qed.

Lemma strip_strip s : strip (strip s) = strip s.
Proof.
  unfold strip.
  assert (Hl : lstrip (rstrip (lstrip s)) = rstrip (lstrip s)).
  { assert (Hs : lstrip s = "" ∨ ∃ a t, lstrip s = String a t ∧ isspace a = false).
    { induction s as [|a s IH]; [by left|]. cbn.
      destruct (isspace a) eqn:Ha; [done|]. right. eauto. }
    destruct Hs as [->|(a & t & -> & Ha)]; [done|]. cbn.
    destruct (rstrip t); rewrite ?Ha; cbn; by rewrite ?Ha. }
  rewrite Hl. apply rstrip_rstrip.
Qed.

(** ** Normalization *)

Lemma repeat_char_snoc a k s :
  repeat_char a k +:+ String a s = repeat_char a (S k) +:+ s.
Proof.
  induction k as [|k IH]; [done|].
  change (String a (repeat_char a k +:+ String a s)
          = String a (repeat_char a (S k) +:+ s)).
  by rewrite IH.
Qed.

Lemma prefix_nil s : String.prefix "" s = true.
Proof. by destruct s. Qed.

Lemma prefix_cons a p b s :
  String.prefix (String a p) (String b s) = Ascii.eqb a b && String.prefix p s.
Proof.
  simpl. destruct (ascii_dec a b) as [->|Hne].
  - by rewrite Ascii.eqb_refl.
  - apply Ascii.eqb_neq in Hne. by rewrite Hne.
Qed.

Lemma prefix_space_newline a s :
  String.prefix space_newline (String a s) = Ascii.eqb a SP && starts_with_newline s.
Proof.
  unfold space_newline, nl. rewrite prefix_cons, (Ascii.eqb_sym SP a).
  destruct s as [|b s]; [done|].
  by rewrite prefix_cons, prefix_nil, (Ascii.eqb_sym LF b), andb_true_r.
Qed.

Lemma space_newline_after_spaces k u :
  starts_with_newline u = false →
  str_in space_newline (repeat_char SP k +:+ u) = str_in space_newline u.
Proof.
  intros Hu. induction k as [|k IH]; [done|].
  simpl repeat_char. rewrite append_cons, str_in_cons, prefix_space_newline, IH.
  assert (Hk : starts_with_newline (repeat_char SP k +:+ u) = false)
    by by destruct k.
  by rewrite Hk.
Qed.

Lemma space_newline_after_newlines j u :
  str_in space_newline (repeat_char LF j +:+ u) = str_in space_newline u.
Proof.
  induction j as [|j IH]; [done|].
  simpl repeat_char. by rewrite append_cons, str_in_cons, prefix_space_newline, IH.
Qed.

Lemma space_newline_in_spaces k : str_in space_newline (repeat_char SP k) = false.
Proof.
  induction k as [|k IH]; [done|].
  simpl repeat_char. rewrite str_in_cons, prefix_space_newline, IH.
  by destruct k.
Qed.

(** [re.sub(r" +\n", "\n", s)] leaves no space before a line feed, and
    changes nothing where there is none. *)
Lemma sub_trailing_from_absent s k :
  str_in space_newline (sub_trailing_from k s) = false.
Proof.
  revert k. induction s as [|a s IH]; intros k; simpl.
  - apply space_newline_in_spaces.
  - destruct (Ascii.eqb_spec a SP) as [->|Hsp]; [apply IH|].
    destruct (Ascii.eqb_spec a LF) as [->|Hlf].
    + by rewrite str_in_cons, prefix_space_newline, IH.
    + rewrite space_newline_after_spaces.
      * rewrite str_in_cons, prefix_space_newline, IH.
        apply Ascii.eqb_neq in Hsp. by rewrite Hsp.
      * simpl. by apply Ascii.eqb_neq.
Qed.

Lemma sub_trailing_from_id s k :
  (k ≠ O → starts_with_newline s = false) →
  str_in space_newline s = false →
  sub_trailing_from k s = repeat_char SP k +:+ s.
Proof.
  revert k. induction s as [|a s IH]; intros k Hk.
  { intros _. by rewrite append_nil_r. }
  rewrite str_in_cons, prefix_space_newline.
  intros [Hhead Htail]%orb_false_elim. simpl sub_trailing_from.
  destruct (Ascii.eqb_spec a SP) as [->|Hsp].
  - rewrite repeat_char_snoc. apply IH; [|done]. by intros _.
  - destruct (Ascii.eqb_spec a LF) as [->|Hlf].
    + destruct k as [|k].
      * by rewrite (IH O).
      * by specialize (Hk (Nat.neq_succ_0 k)).
    + by rewrite (IH O).
Qed.

(** [re.sub(r"\n{3,}", "\n\n", s)] puts no space before a line feed. *)
Lemma flush_newlines_repeat run : ∃ j, (j ≤ 2)%nat ∧ flush_newlines run = repeat_char LF j.
Proof.
  unfold flush_newlines. destruct (Nat.leb_spec 3 run).
  - exists 2%nat. split; [lia|done].
  - exists run. split; [lia|done].
Qed.

Lemma sub_newlines_from_head run s :
  starts_with_newline (sub_newlines_from run s)
  = match run with O => starts_with_newline s | S _ => true end.
Proof.
  revert run. induction s as [|a s IH]; intros run; simpl.
  - by destruct run as [|[|[|run]]].
  - destruct (Ascii.eqb_spec a LF) as [->|Hlf].
    + rewrite IH. by destruct run.
    + destruct run as [|[|[|run]]]; simpl; try done.
      by apply Ascii.eqb_neq.
Qed.

Lemma sub_newlines_from_keeps_absent s run :
  str_in space_newline s = false →
  str_in space_newline (sub_newlines_from run s) = false.
Proof.
  revert run. induction s as [|a s IH]; intros run; simpl sub_newlines_from.
  - intros _. destruct (flush_newlines_repeat run) as (j & _ & ->).
    by rewrite <- (append_nil_r (repeat_char LF j)), space_newline_after_newlines.
  - rewrite str_in_cons, prefix_space_newline.
    intros [Hhead Htail]%orb_false_elim.
    destruct (Ascii.eqb_spec a LF) as [->|Hlf]; [by apply IH|].
    destruct (flush_newlines_repeat run) as (j & _ & ->).
    rewrite space_newline_after_newlines, str_in_cons, prefix_space_newline.
    rewrite sub_newlines_from_head, (IH O) by done.
    by rewrite Hhead.
Qed.

Lemma three_newlines_after_short j a t :
  (j ≤ 2)%nat → a ≠ LF →
  str_in three_newlines (repeat_char LF j +:+ String a t) = str_in three_newlines t.
Proof.
  intros Hj Ha. apply not_eq_sym, Ascii.eqb_neq in Ha.
  destruct j as [|[|[|j]]]; [| | |lia]; simpl repeat_char;
    rewrite ?append_cons; change ("" +:+ String a t) with (String a t);
    unfold three_newlines; simpl repeat_char;
    rewrite !str_in_cons, !prefix_cons, ?Ha, ?Ascii.eqb_refl; simpl;
    by rewrite ?Ha.
Qed.

Lemma three_newlines_in_short j : (j ≤ 2)%nat → str_in three_newlines (repeat_char LF j) = false.
Proof. intros Hj. by destruct j as [|[|[|j]]]; [| | |lia]. Qed.

Lemma three_newlines_in_long k s :
  str_in three_newlines (repeat_char LF (3 + k) +:+ s) = true.
Proof.
  induction k as [|k IH].
  - simpl repeat_char. rewrite !append_cons, str_in_cons.
    unfold three_newlines. simpl repeat_char.
    by rewrite !prefix_cons, prefix_nil, !Ascii.eqb_refl.
  - change (repeat_char LF (3 + S k)) with (String LF (repeat_char LF (3 + k))).
    rewrite append_cons, str_in_cons, IH. apply orb_true_r.
Qed.

(** [re.sub(r"\n{3,}", "\n\n", s)] leaves no three line feeds in a row, and
    changes nothing where there are none. *)
Lemma sub_newlines_from_absent s run :
  str_in three_newlines (sub_newlines_from run s) = false.
Proof.
  revert run. induction s as [|a s IH]; intros run; simpl sub_newlines_from.
  - destruct (flush_newlines_repeat run) as (j & Hj & ->).
    by apply three_newlines_in_short.
  - destruct (Ascii.eqb_spec a LF) as [->|Hlf]; [apply IH|].
    destruct (flush_newlines_repeat run) as (j & Hj & ->).
    by rewrite three_newlines_after_short.
Qed.

Lemma sub_newlines_from_id s run :
  str_in three_newlines (repeat_char LF run +:+ s) = false →
  sub_newlines_from run s = repeat_char LF run +:+ s.
Proof.
  revert run. induction s as [|a s IH]; intros run Habs.
  - assert (Hrun : (run < 3)%nat).
    { destruct (Nat.lt_ge_cases run 3) as [?|Hge]; [done|].
      replace run with (3 + (run - 3))%nat in Habs by lia.
      by rewrite three_newlines_in_long in Habs. }
    simpl. unfold flush_newlines. rewrite append_nil_r.
    by destruct (Nat.leb_spec 3 run); [lia|].
  - simpl sub_newlines_from.
    destruct (Ascii.eqb_spec a LF) as [->|Hlf].
    + rewrite repeat_char_snoc in *. by apply IH.
    + assert (Hrun : (run < 3)%nat).
      { destruct (Nat.lt_ge_cases run 3) as [?|Hge]; [done|].
        replace run with (3 + (run - 3))%nat in Habs by lia.
        by rewrite three_newlines_in_long in Habs. }
      unfold flush_newlines. destruct (Nat.leb_spec 3 run); [lia|].
      rewrite (IH O); [done|].
      apply str_in_app_r in Habs. rewrite str_in_cons in Habs.
      by apply orb_false_elim in Habs as [_ ?].
Qed.

Lemma sub_newlines_id s : str_in three_newlines s = false → sub_newlines s = s.
Proof. intros H. by apply (sub_newlines_from_id s O). Qed.

Lemma sub_trailing_id s : str_in space_newline s = false → sub_trailing s = s.
Proof. intros H. by apply (sub_trailing_from_id s O). Qed.

(** A text without the two patterns and without white space at its ends is
    left as it is. *)
Lemma clean_markdown_fixed z :
  str_in space_newline z = false →
  str_in three_newlines z = false →
  strip z = z →
  _clean_markdown z = z.
Proof.
  intros Hsp Hlf Hstrip. unfold _clean_markdown.
  by rewrite sub_newlines_id, sub_trailing_id.
Qed.

(** On a text with no space before a line feed, [_clean_markdown] is
    idempotent. *)
Lemma clean_markdown_idempotent_without_trailing_spaces y :
  str_in space_newline y = false →
  _clean_markdown (_clean_markdown y) = _clean_markdown y.
Proof.
  intros Hsp. apply clean_markdown_fixed.
  - apply strip_keeps_absent, sub_trailing_from_absent.
  - unfold _clean_markdown. rewrite sub_trailing_id.
    + apply strip_keeps_absent, sub_newlines_from_absent.
    + by apply sub_newlines_from_keeps_absent.
  - apply strip_strip.
Qed.

(** X2.  Whatever the text, a second [_clean_markdown] reaches a text that a
    third leaves as it is. *)
Lemma clean_markdown_stable x :
  _clean_markdown (_clean_markdown (_clean_markdown x))
  = _clean_markdown (_clean_markdown x).
Proof.
  apply clean_markdown_idempotent_without_trailing_spaces.
  apply strip_keeps_absent, sub_trailing_from_absent.
Qed.

(** ** Histories *)

Lemma fetches_of_app u w1 w2 :
  fetches_of u (w1 ++ w2) = fetches_of u w1 ++ fetches_of u w2.
Proof.
  induction w1 as [|[url d|url|url r|doc] w1 IH]; cbn; try done.
  destruct (String.eqb url u); cbn; by rewrite IH.
Qed.

Lemma crawlings_of_app u w1 w2 :
  crawlings_of u (w1 ++ w2) = crawlings_of u w1 ++ crawlings_of u w2.
Proof.
  induction w1 as [|[url d|url|url r|doc] w1 IH]; cbn; try done.
  destruct (String.eqb url u); cbn; by rewrite IH.
Qed.

Lemma marked_before_fetch_app tr seg :
  marked_before_fetch tr → marked_before_fetch seg → marked_before_fetch (tr ++ seg).
Proof.
  intros Htr Hseg pre u r post Heq.
  apply List.app_eq_app in Heq as [l [[-> Hl]|[-> Hl]]].
  - destruct l as [|e l]; cbn in Hl.
    + symmetry in Hl. apply (Hseg []) in Hl. by apply elem_of_nil in Hl.
    + injection Hl as <- ->. by eapply Htr.
  - apply elem_of_app. right. by eapply Hseg.
Qed.

(** The events of one run of the loop body. *)
Lemma marked_before_fetch_body url depth r1 tail :
  (tail = [] ∨ fetch_failed r1 = false ∧ ∃ r2, tail = [EvGet url r2]) →
  marked_before_fetch (EvCrawling url depth :: EvVisited url :: EvGet url r1 :: tail).
Proof.
  intros [->|(_ & r2 & ->)] pre u r post Heq;
    destruct pre as [|e0 [|e1 [|e2 [|e3 pre]]]]; simplify_eq/=;
    try set_solver; by destruct pre.
Qed.

Lemma dict_setitem_elem k v d u md :
  (u, md) ∈ dict_setitem k v d → (u, md) ∈ d ∨ u = k.
Proof.
  induction d as [|[k' v'] d IH]; cbn.
  - intros H%list_elem_of_singleton. right. congruence.
  - destruct (String.eqb k' k).
    + intros [H|H]%elem_of_cons; [right; congruence|]. left. by right.
    + intros [H|H]%elem_of_cons; [left; rewrite H; by left|].
      destruct (IH H) as [?|?]; [left; by right|by right].
Qed.

(** ** The loop body *)

(** Unfolds the monadic operations of the loop body run in [st], up to its
    request. *)
Ltac open_crawl_body st :=
  unfold crawl_body, try_except, mbind, M_bind, in_world, modify, visited_add,
    requests_get, raise_for_status, raise, mret, M_ret, emit, of_res,
    content_dict_set; cbn;
  rewrite <- (app_assoc (world st)); cbn.

Section crawl_facts.

Variable net : World -> string -> Res Response.
Variable find_all_a_href : string -> list string.
Variable html2text_handle : World -> string -> Rendering.
Variable urljoin : string -> string -> Res string.
Variable urlparse_netloc : string -> Res string.
Variable max_depth : Z.

Abbreviation scrape := (scrape net html2text_handle).
Abbreviation _extract_links := (_extract_links find_all_a_href urljoin urlparse_netloc).
Abbreviation crawl_body :=
  (crawl_body net find_all_a_href html2text_handle urljoin urlparse_netloc max_depth).
Abbreviation crawl_iter :=
  (crawl_iter net find_all_a_href html2text_handle urljoin urlparse_netloc max_depth).
Abbreviation crawl_run :=
  (crawl_run net find_all_a_href html2text_handle urljoin urlparse_netloc max_depth).
Abbreviation crawl_loop :=
  (crawl_loop net find_all_a_href html2text_handle urljoin urlparse_netloc max_depth).

Lemma enqueue_links_eq links depth st :
  enqueue_links links depth st =
  (Ok tt, mkCrawlSt (queue st ++ new_entries (visited st) links depth)
                    (visited st) (content_dict st) (world st)).
Proof.
  revert st. induction links as [|link links IH]; intros st.
  - destruct st; cbn. unfold new_entries; cbn. by rewrite app_nil_r.
  - cbn [enqueue_links]. unfold mbind, M_bind, gets, mret, M_ret, modify.
    unfold new_entries. rewrite filter_cons.
    destruct (decide (link ∈ visited st)) as [Hin|Hin].
    + rewrite bool_decide_eq_true_2 by done. rewrite IH.
      destruct (decide (link ∉ visited st)); [done|]. done.
    + rewrite bool_decide_eq_false_2 by done. rewrite IH. cbn.
      destruct (decide (link ∉ visited st)); [|done].
      cbn. by rewrite <- app_assoc.
Qed.

(** What [scrape] does to the world: nothing, or one request for [url]. *)
Lemma scrape_world url w :
  snd (scrape url w) = w ∨ snd (scrape url w) = w ++ [EvGet url (net w url)].
Proof.
  unfold scrape, try_except, mbind, M_bind, requests_get, raise_for_status, raise,
    emit, converter_handle.
  destruct (valid_url url); cbn; [|by left].
  destruct (net w url) as [resp|e]; cbn.
  - destruct (http_error resp); cbn; [by right|].
    destruct (str_in _ _); cbn; [|by right].
    destruct (html2text_handle _ _); cbn; by right.
  - right. by destruct e.
Qed.

(** Every way through the loop body: it never raises, marks [url], sends one
    request and, only when that request succeeded, possibly a second one (the
    one of [scrape]); it stores at most the page of [url]; it appends entries
    only at [depth + 1], only for extracted links not yet visited and only
    below [max_depth]. *)
Lemma crawl_body_spec url depth st :
  let r1 := net (at_request (world st) url depth) url in
  ∃ tail links cd',
    crawl_body url depth st =
      (Ok tt, mkCrawlSt (queue st ++ new_entries ({[url]} ∪ visited st) links depth)
                        ({[url]} ∪ visited st) cd'
                        (at_request (world st) url depth ++ EvGet url r1 :: tail))
    ∧ (tail = [] ∨ fetch_failed r1 = false ∧ ∃ r2, tail = [EvGet url r2])
    ∧ (cd' = content_dict st ∨ ∃ md, cd' = dict_setitem url md (content_dict st))
    ∧ (links = [] ∨ depth < max_depth ∧ ∃ soup, _extract_links soup url = Ok links).
Proof.
  intros r1. unfold at_request in *.
  open_crawl_body st. fold r1.
  destruct r1 as [resp|e] eqn:Hr1; cbn.
  2:{ exists [], [], (content_dict st). unfold new_entries; cbn.
      rewrite app_nil_r. auto. }
  destruct (http_error resp) as [msg|] eqn:Herr; cbn.
  { exists [], [], (content_dict st). unfold new_entries; cbn.
    rewrite app_nil_r. auto. }
  destruct (str_in "text/html" (content_type resp)); cbn.
  2:{ exists [], [], (content_dict st). unfold new_entries; cbn.
      rewrite app_nil_r. auto. }
  set (w2 := (world st ++ [EvCrawling url depth; EvVisited url]) ++ [EvGet url (Ok resp)]).
  assert (Htail : ∃ tail, snd (scrape url w2) = w2 ++ tail
            ∧ (tail = [] ∨ false = false ∧ ∃ r2, tail = [EvGet url r2])).
  { destruct (scrape_world url w2) as [H|H]; rewrite H.
    - exists []. rewrite app_nil_r. auto.
    - eexists. split; [done|]. right. eauto. }
  destruct Htail as (tail & Hw & Htail).
  assert (Hw2 : w2 ++ tail =
    (world st ++ [EvCrawling url depth; EvVisited url]) ++ EvGet url (Ok resp) :: tail).
  { unfold w2. by rewrite <- !app_assoc. }
  destruct (scrape url w2) as [[md|e] w3] eqn:Hs; cbn in Hw; subst w3; cbn;
    rewrite Hw2.
  2:{ exists tail, [], (content_dict st). unfold new_entries; cbn.
      rewrite app_nil_r. auto. }
  destruct (depth <? max_depth) eqn:Hd; cbn.
  2:{ exists tail, [], (dict_setitem url md (content_dict st)).
      unfold new_entries; cbn. rewrite app_nil_r. split_and!; eauto. }
  destruct (_extract_links (text resp) url) as [links|e] eqn:Hlinks; cbn.
  2:{ exists tail, [], (dict_setitem url md (content_dict st)).
      unfold new_entries; cbn. rewrite app_nil_r. split_and!; eauto. }
  rewrite enqueue_links_eq; cbn.
  exists tail, links, (dict_setitem url md (content_dict st)).
  apply Z.ltb_lt in Hd. split_and!; eauto.
Qed.

Lemma crawl_iter_cases st :
  (queue st = [] ∧ crawl_iter st = st)
  ∨ ∃ url depth rest, queue st = (url, depth) :: rest ∧
      ((url ∈ visited st ∨ max_depth < depth) ∧ crawl_iter st = set_queue rest st
       ∨ (url ∉ visited st) ∧ (depth ≤ max_depth) ∧
         crawl_iter st = snd (crawl_body url depth (set_queue rest st))).
Proof.
  unfold crawl_iter. destruct (queue st) as [|[url depth] rest]; [by left|].
  right. exists url, depth, rest. split; [done|]. cbn [visited set_queue].
  destruct (decide (url ∈ visited st)) as [Hin|Hin].
  { rewrite bool_decide_eq_true_2 by done. cbn. auto. }
  rewrite bool_decide_eq_false_2 by done. cbn.
  destruct (Z.ltb_spec max_depth depth); auto.
Qed.

(** The events of one run of the loop body, seen from one URL. *)
Lemma body_events url depth r1 tail u :
  (tail = [] ∨ fetch_failed r1 = false ∧ ∃ r2, tail = [EvGet url r2]) →
  let seg := EvCrawling url depth :: EvVisited url :: EvGet url r1 :: tail in
  (u ≠ url → fetches_of u seg = [] ∧ crawlings_of u seg = [])
  ∧ fetch_shape (fetches_of url seg)
  ∧ crawlings_of url seg = [depth].
Proof.
  intros Htail seg. subst seg. cbn. rewrite String.eqb_refl.
  split_and!.
  - intros Hne. apply not_eq_sym, String.eqb_neq in Hne. rewrite Hne.
    destruct Htail as [->|(_ & r2 & ->)]; cbn; by rewrite ?Hne.
  - destruct Htail as [->|(Hok & r2 & ->)]; cbn; rewrite ?String.eqb_refl.
    + right; left; eauto.
    + right; right; eauto.
  - by destruct Htail as [->|(_ & r2 & ->)].
Qed.

(** One iteration keeps the invariant, and only adds events. *)
Lemma crawl_iter_inv st tr :
  crawl_inv max_depth st tr →
  ∃ seg, world (crawl_iter st) = world st ++ seg
         ∧ crawl_inv max_depth (crawl_iter st) (tr ++ seg).
Proof.
  intros [Hunv Hfet Hcr Hmark Hdep Hsto Hquiet].
  destruct (crawl_iter_cases st)
    as [[_ ->]|(url & depth & rest & Hq & [[_ ->]|(Hnew & Hle & ->)])].
  - exists []. rewrite !app_nil_r. by split.
  - exists []. rewrite !app_nil_r. by split.
  - destruct (crawl_body_spec url depth (set_queue rest st))
      as (tail & links & cd' & -> & Htail & Hcd & _).
    cbn [snd world visited content_dict queue set_queue].
    set (r1 := net (at_request (world st) url depth) url) in *.
    set (seg := EvCrawling url depth :: EvVisited url :: EvGet url r1 :: tail).
    exists seg. split.
    { unfold at_request, seg. by rewrite <- app_assoc. }
    split; cbn [visited content_dict].
    + intros u [Hne Hu]%not_elem_of_union.
      apply not_elem_of_singleton in Hne.
      destruct (body_events url depth r1 tail u Htail) as (Hseg & _ & _).
      destruct (Hseg Hne) as [Hf Hc], (Hunv u Hu) as [Hf' Hc'].
      rewrite fetches_of_app, crawlings_of_app. fold seg in Hf, Hc.
      by rewrite Hf, Hc, Hf', Hc'.
    + intros u. rewrite fetches_of_app.
      destruct (body_events url depth r1 tail u Htail) as (Hseg & Hshape & _).
      fold seg in Hseg, Hshape.
      destruct (decide (u = url)) as [->|Hne].
      * destruct (Hunv url Hnew) as [-> _]. done.
      * destruct (Hseg Hne) as [-> _]. by rewrite app_nil_r.
    + intros u. rewrite crawlings_of_app.
      destruct (body_events url depth r1 tail u Htail) as (Hseg & _ & Hone).
      fold seg in Hseg, Hone.
      destruct (decide (u = url)) as [->|Hne].
      * destruct (Hunv url Hnew) as [_ ->]. by rewrite Hone.
      * destruct (Hseg Hne) as [_ ->]. by rewrite app_nil_r.
    + apply marked_before_fetch_app; [done|].
      by apply marked_before_fetch_body.
    + intros u k. rewrite crawlings_of_app.
      destruct (body_events url depth r1 tail u Htail) as (Hseg & _ & Hone).
      fold seg in Hseg, Hone.
      intros [Hk|Hk]%elem_of_app; [by eapply Hdep|].
      destruct (decide (u = url)) as [->|Hne].
      * rewrite Hone in Hk. apply list_elem_of_singleton in Hk. by subst.
      * destruct (Hseg Hne) as [_ Hnil]. rewrite Hnil in Hk.
        by apply elem_of_nil in Hk.
    + intros u md Hin. rewrite crawlings_of_app.
      destruct (body_events url depth r1 tail u Htail) as (_ & _ & Hone).
      fold seg in Hone.
      assert (Hcase : (u, md) ∈ content_dict st ∨ u = url).
      { destruct Hcd as [->|[md' ->]]; [by left|].
        by eapply dict_setitem_elem. }
      destruct Hcase as [Hold| ->].
      * intros [Hnil _]%app_eq_nil. by eapply Hsto.
      * rewrite Hone. intros [_ ?]%app_eq_nil. done.
    + apply Forall_app. split; [done|].
      destruct Htail as [->|(_ & r2 & ->)]; by repeat constructor.
Qed.

Lemma crawl_init_inv base_url w0 : crawl_inv max_depth (crawl_init base_url w0) [].
Proof.
  split; cbn; try done.
  - intros u. by left.
  - intros u. lia.
  - intros pre u r post H. by destruct pre.
  - intros u k H. by apply elem_of_nil in H.
  - intros u md H. by apply elem_of_nil in H.
Qed.

(** The invariant holds after any number of iterations, of the events the
    call added to the world it started in. *)
Lemma crawl_run_inv n st tr :
  crawl_inv max_depth st tr →
  ∃ seg, world (crawl_run n st) = world st ++ seg
         ∧ crawl_inv max_depth (crawl_run n st) (tr ++ seg).
Proof.
  revert st tr. induction n as [|n IH]; intros st tr Hinv; cbn.
  - exists []. by rewrite !app_nil_r.
  - destruct (crawl_iter_inv st tr Hinv) as (seg1 & Hw1 & Hinv1).
    destruct (IH _ _ Hinv1) as (seg2 & Hw2 & Hinv2).
    exists (seg1 ++ seg2). rewrite Hw2, Hw1, <- !app_assoc.
    split; [done|]. by rewrite <- app_assoc in Hinv2.
Qed.

(** A finished loop is the state after some number of iterations, with an
    empty queue. *)
Lemma crawl_loop_run fuel st st' :
  crawl_loop fuel st = Some st' →
  ∃ n, st' = crawl_run n st ∧ queue st' = [].
Proof.
  revert st. induction fuel as [|fuel IH]; intros st; cbn; [done|].
  destruct (queue st) as [|e q] eqn:Hq.
  - intros [= <-]. by exists O.
  - intros (n & -> & Hn)%IH. by exists (S n).
Qed.

(** The two exact runs of the loop body the properties below need. *)

Lemma crawl_body_non_html url depth st resp :
  net (at_request (world st) url depth) url = Ok resp →
  str_in "text/html" (content_type resp) = false →
  crawl_body url depth st =
    (Ok tt, mkCrawlSt (queue st) ({[url]} ∪ visited st) (content_dict st)
                      (at_request (world st) url depth ++ [EvGet url (Ok resp)])).
Proof.
  intros Hnet Hct. unfold at_request in *.
  open_crawl_body st. rewrite Hnet; cbn.
  destruct (http_error resp); cbn; [done|]. by rewrite Hct.
Qed.

Lemma crawl_body_success url depth st resp md w3 links :
  net (at_request (world st) url depth) url = Ok resp →
  http_error resp = None →
  str_in "text/html" (content_type resp) = true →
  scrape url (at_request (world st) url depth ++ [EvGet url (Ok resp)]) = (Ok md, w3) →
  depth < max_depth →
  _extract_links (text resp) url = Ok links →
  crawl_body url depth st =
    (Ok tt, mkCrawlSt (queue st ++ new_entries ({[url]} ∪ visited st) links depth)
                      ({[url]} ∪ visited st)
                      (dict_setitem url md (content_dict st)) w3).
Proof.
  intros Hnet Herr Hct Hs Hd Hl. unfold at_request in *.
  open_crawl_body st. rewrite Hnet; cbn.
  rewrite Herr; cbn. rewrite Hct; cbn. rewrite Hs; cbn.
  apply Z.ltb_lt in Hd. rewrite Hd, Hl; cbn.
  by rewrite enqueue_links_eq.
Qed.

(** With a non-negative [max_depth], every entry of the queue has a depth
    between [0] and [max_depth]. *)
Lemma crawl_iter_queue st :
  Forall (fun e => 0 ≤ e.2 ≤ max_depth) (queue st) →
  Forall (fun e => 0 ≤ e.2 ≤ max_depth) (queue (crawl_iter st)).
Proof.
  intros Hq.
  destruct (crawl_iter_cases st)
    as [[_ ->]|(url & depth & rest & Heq & [[_ ->]|(_ & _ & ->)])]; [done|..];
    rewrite Heq in Hq; apply Forall_cons in Hq as [Hd Hrest]; [done|].
  destruct (crawl_body_spec url depth (set_queue rest st))
    as (tail & links & cd' & -> & _ & _ & Hlinks).
  cbn in *. apply Forall_app. split; [done|].
  unfold new_entries. destruct Hlinks as [->|[Hlt _]]; [by constructor|].
  apply Forall_fmap, Forall_forall. intros link _. cbn. lia.
Qed.

Lemma crawl_run_queue n st :
  Forall (fun e => 0 ≤ e.2 ≤ max_depth) (queue st) →
  Forall (fun e => 0 ≤ e.2 ≤ max_depth) (queue (crawl_run n st)).
Proof.
  revert st. induction n as [|n IH]; intros st Hq; cbn; [done|].
  by apply IH, crawl_iter_queue.
Qed.

(** ** The crawl *)

(** The events a [crawl] call has added to the world after [n] iterations,
    with the invariant they satisfy. *)
Lemma crawl_events base_url w0 n :
  ∃ tr, world (crawl_run n (crawl_init base_url w0)) = w0 ++ tr
        ∧ crawl_inv max_depth (crawl_run n (crawl_init base_url w0)) tr.
Proof.
  destruct (crawl_run_inv n _ _ (crawl_init_inv base_url w0)) as (tr & Hw & Hinv).
  by exists tr.
Qed.

(** The requests of one [crawl] call.  Every URL is taken up by the loop at
    most once, and requested at most twice: once in the loop and, only when
    that request succeeded, once more inside [scrape]. *)
Theorem crawl_fetches_each_url_at_most_twice base_url w0 n :
  ∃ tr, world (crawl_run n (crawl_init base_url w0)) = w0 ++ tr ∧
    ∀ u, (length (crawlings_of u tr) ≤ 1)%nat
         ∧ (length (fetches_of u tr) ≤ 2)%nat
         ∧ fetch_shape (fetches_of u tr).
Proof.
  destruct (crawl_events base_url w0 n) as (tr & Hw & Hinv).
  exists tr. split; [done|]. intros u. split_and!.
  - apply Hinv.
  - destruct (inv_fetches _ _ _ Hinv u) as [->|[[r ->]|(r1 & r2 & -> & _)]]; cbn; lia.
  - apply Hinv.
Qed.

(** C9.  Every request of a [crawl] call comes after the [visited.add] of its
    URL, and a failed fetch of a URL is the last fetch of that URL in the
    call. *)
Theorem crawl_marks_before_fetch_and_never_retries base_url w0 n :
  ∃ tr, world (crawl_run n (crawl_init base_url w0)) = w0 ++ tr
        ∧ marked_before_fetch tr ∧ never_retried tr.
Proof.
  destruct (crawl_events base_url w0 n) as (tr & Hw & Hinv).
  exists tr. split_and!; [done|apply Hinv|].
  intros u pre r post Heq Hfail.
  destruct (inv_fetches _ _ _ Hinv u) as [H|[[r' H]|(r1 & r2 & H & Hok)]];
    rewrite H in Heq.
  - by destruct pre.
  - destruct pre as [|? [|? ?]]; by simplify_eq/=.
  - destruct pre as [|? [|? [|? ?]]]; simplify_eq/=; [congruence|done].
Qed.

(** The general half of C5: a stored page was taken from exactly one queue
    entry, and the depth of that entry is at most [max_depth]. *)
Lemma stored_depth_le base_url w0 n :
  ∃ tr, world (crawl_run n (crawl_init base_url w0)) = w0 ++ tr ∧
    ∀ u md, (u, md) ∈ content_dict (crawl_run n (crawl_init base_url w0)) →
            ∃ k, crawlings_of u tr = [k] ∧ k ≤ max_depth.
Proof.
  destruct (crawl_events base_url w0 n) as (tr & Hw & Hinv).
  exists tr. split; [done|]. intros u md Hin.
  pose proof (inv_stored _ _ _ Hinv u md Hin) as Hne.
  pose proof (inv_crawlings _ _ _ Hinv u) as Hlen.
  pose proof (inv_depth _ _ _ Hinv u) as Hdep.
  destruct (crawlings_of u tr) as [|k [|k' l]]; cbn in Hlen; [done| |lia].
  exists k. split; [done|]. apply Hdep. by left.
Qed.

(** C10.  With a non-negative [max_depth], after any number of iterations
    every entry of the queue has a depth between [0] and [max_depth], so the
    entry taken next is not discarded for its depth. *)
Theorem queue_depth_bounded base_url w0 n :
  0 ≤ max_depth →
  Forall (fun e => 0 ≤ e.2 ≤ max_depth) (queue (crawl_run n (crawl_init base_url w0)))
  ∧ ∀ url depth rest,
      queue (crawl_run n (crawl_init base_url w0)) = (url, depth) :: rest →
      (max_depth <? depth) = false.
Proof.
  intros Hd.
  assert (Hq : Forall (fun e => 0 ≤ e.2 ≤ max_depth)
                 (queue (crawl_run n (crawl_init base_url w0)))).
  { apply crawl_run_queue. cbn. constructor; [cbn; lia|constructor]. }
  split; [done|]. intros url depth rest Heq.
  rewrite Heq in Hq. apply Forall_cons in Hq as [Hk _]. cbn in Hk.
  apply Z.ltb_ge. lia.
Qed.

(** C4, as the code has it.  When the loop takes up an entry below
    [max_depth], both fetches succeed and the links are extracted, the links
    not yet visited (the page's own URL counts as visited) are appended at
    [depth + 1], in document order and with their repetitions. *)
Theorem links_enqueued_unless_visited st url depth rest resp md w3 links :
  queue st = (url, depth) :: rest →
  url ∉ visited st →
  depth < max_depth →
  net (at_request (world st) url depth) url = Ok resp →
  http_error resp = None →
  str_in "text/html" (content_type resp) = true →
  scrape url (at_request (world st) url depth ++ [EvGet url (Ok resp)]) = (Ok md, w3) →
  _extract_links (text resp) url = Ok links →
  queue (crawl_iter st) =
    rest ++ ((fun link => (link, depth + 1)) <$>
             filter (fun link => link ∉ ({[url]} ∪ visited st)) links).
Proof.
  intros Hq Hnew Hd Hnet Herr Hct Hs Hl.
  destruct (crawl_iter_cases st)
    as [[Hnil _]|(url' & depth' & rest' & Heq & [[Hskip _]|(_ & _ & ->)])].
  - congruence.
  - rewrite Hq in Heq. simplify_eq. destruct Hskip; [done|lia].
  - rewrite Hq in Heq. simplify_eq.
    by rewrite (crawl_body_success url' depth' _ resp md w3 links).
Qed.

(** C7.  When the request for a valid [base_url] is answered with a content
    type that is not HTML, [crawl] returns, without raising, the result that
    holds no page: the empty text or the empty dictionary. *)
Theorem crawl_non_html_is_empty base_url format_type w0 fuel resp :
  valid_url base_url = true →
  net (at_request w0 base_url 0) base_url = Ok resp →
  str_in "text/html" (content_type resp) = false →
  ∃ w1, crawl net find_all_a_href html2text_handle urljoin urlparse_netloc
              max_depth base_url format_type (S (S fuel)) w0
        = Some (Ok (if String.eqb format_type "markdown"
                    then Markdown "" else Json []), w1).
Proof.
  intros Hvalid Hnet Hct. unfold crawl. rewrite Hvalid. cbn [negb].
  assert (Hiter : ∃ v w1, crawl_iter (crawl_init base_url w0) = mkCrawlSt [] v [] w1).
  { unfold crawl_iter. cbn.
    destruct (max_depth <? 0); cbn; [by eexists _, _|].
    rewrite (crawl_body_non_html base_url 0 _ resp); [|done..].
    by eexists _, _. }
  destruct Hiter as (v & w1 & Hiter).
  exists w1. cbn [crawl_loop crawl_init queue]. rewrite Hiter. cbn.
  unfold crawl_result. cbn. by destruct (String.eqb format_type "markdown").
Qed.

(** C8.  A URL that starts with neither "http://" nor "https://" makes
    [scrape] and [crawl] raise [ValueError], and the world is left as it
    was: no request is sent. *)
Theorem invalid_url_rejected_before_any_request url w :
  startswith "http://" url = false →
  startswith "https://" url = false →
  scrape url w =
    (Raise (ValueError ("Error processing " +:+ url +:+ ": " +:+ "Invalid URL: " +:+ url)), w)
  ∧ ∀ format_type fuel,
      crawl net find_all_a_href html2text_handle urljoin urlparse_netloc
            max_depth url format_type fuel w
      = Some (Raise (ValueError ("Invalid URL: " +:+ url)), w).
Proof.
  intros H1 H2.
  assert (Hv : valid_url url = false) by (unfold valid_url; by rewrite H1, H2).
  split.
  - unfold scrape, try_except. by rewrite Hv.
  - intros format_type fuel. unfold crawl. by rewrite Hv.
Qed.

(** With [max_depth = 0] the loop is over after one iteration, in which
    only [base_url] was requested and stored. *)
Lemma crawl_depth_zero base_url w0 fuel :
  max_depth = 0 →
  ∃ st tr,
    crawl_loop (S (S fuel)) (crawl_init base_url w0) = Some st
    ∧ world st = w0 ++ tr
    ∧ (∀ u r, EvGet u r ∈ tr → u = base_url)
    ∧ (∀ u md, (u, md) ∈ content_dict st → u = base_url).
Proof.
  intros Hzero.
  destruct (crawl_iter_cases (crawl_init base_url w0))
    as [[Hnil _]|(url & depth & rest & Heq & [[Hskip _]|(_ & _ & Hiter)])].
  - done.
  - cbn in Heq. injection Heq as <- <- <-. destruct Hskip as [Hin|?]; [|lia].
    by apply not_elem_of_empty in Hin.
  - cbn in Heq. injection Heq as <- <- <-.
    destruct (crawl_body_spec base_url 0 (set_queue [] (crawl_init base_url w0)))
      as (tail & links & cd' & Hbody & Htail & Hcd & Hlinks).
    rewrite Hbody in Hiter. cbn [snd] in Hiter.
    destruct Hlinks as [->|[? _]]; [|lia].
    eexists _, _. split_and!.
    + cbn [crawl_loop crawl_init queue]. rewrite Hiter. by cbn.
    + cbn. unfold at_request. by rewrite <- app_assoc.
    + intros u r Hin.
      destruct Htail as [->|(_ & r2 & ->)];
        repeat (apply elem_of_cons in Hin as [Hin|Hin]; [congruence|]);
        by apply elem_of_nil in Hin.
    + intros u md Hin.
      destruct Hcd as [->|[md' ->]]; cbn in Hin;
        repeat (apply elem_of_cons in Hin as [Hin|Hin]; [congruence|]);
        by apply elem_of_nil in Hin.
Qed.

(** ** Links *)

(** Every link [_extract_links] returns has passed [_same_domain]. *)
Lemma _extract_links_loop_same_domain links hrefs base_url out :
  Forall (fun link => _same_domain urlparse_netloc link base_url = Ok true) links →
  _extract_links_loop urljoin urlparse_netloc links hrefs base_url = Ok out →
  Forall (fun link => _same_domain urlparse_netloc link base_url = Ok true) out.
Proof.
  revert links. induction hrefs as [|href hrefs IH]; intros links Hlinks; cbn.
  - by intros [= <-].
  - destruct (String.eqb href "" || startswith "#" href); [by apply IH|].
    destruct (urljoin base_url href) as [absolute_url|e]; cbn; [|done].
    destruct (_same_domain _ _ base_url) as [[|]|e] eqn:Hsame; cbn; [| |done].
    + apply IH. apply Forall_app. split; [done|]. by constructor.
    + by apply IH.
Qed.

Lemma _extract_links_same_domain soup base_url out :
  _extract_links soup base_url = Ok out →
  Forall (fun link => _same_domain urlparse_netloc link base_url = Ok true) out.
Proof. by apply _extract_links_loop_same_domain. Qed.

(** ** Termination *)

Lemma crawl_run_add a b st : crawl_run (a + b) st = crawl_run b (crawl_run a st).
Proof. revert st. induction a as [|a IH]; intros st; [done|]. cbn. apply IH. Qed.

(** An iteration appends entries one level below the entry it took up, and
    none for an entry of level [0]. *)
Lemma crawl_iter_levels st e rest :
  queue st = e :: rest →
  ∃ new, queue (crawl_iter st) = rest ++ new
         ∧ Forall (fun e' => S (entry_level max_depth e') = entry_level max_depth e) new.
Proof.
  intros Hq.
  destruct (crawl_iter_cases st)
    as [[Hnil _]|(url & depth & rest' & Heq & [[_ ->]|(_ & _ & ->)])].
  - congruence.
  - rewrite Hq in Heq. injection Heq as -> ->. exists []. cbn.
    by rewrite app_nil_r.
  - rewrite Hq in Heq. injection Heq as -> ->.
    destruct (crawl_body_spec url depth (set_queue rest' st))
      as (tail & links & cd' & -> & _ & _ & Hlinks).
    cbn [snd queue set_queue]. eexists. split; [done|].
    unfold new_entries. destruct Hlinks as [->|[Hlt _]]; [constructor|].
    apply Forall_fmap, Forall_forall. intros link _. unfold entry_level. cbn. lia.
Qed.

(** The entries on the queue are taken up one after the other; when that is
    done, what is on the queue is one level lower. *)
Lemma crawl_run_phase L q : ∀ extra st,
  queue st = q ++ extra →
  Forall (fun e => (entry_level max_depth e ≤ S L)%nat) q →
  Forall (fun e => (entry_level max_depth e ≤ L)%nat) extra →
  Forall (fun e => (entry_level max_depth e ≤ L)%nat) (queue (crawl_run (length q) st)).
Proof.
  induction q as [|e q IH]; intros extra st Hq Hlev Hextra; cbn.
  - by rewrite Hq.
  - apply Forall_cons in Hlev as [He Hlev].
    destruct (crawl_iter_levels st e (q ++ extra) Hq) as (new & Hq' & Hnew).
    apply (IH (extra ++ new)); [by rewrite Hq', app_assoc|done|].
    apply Forall_app. split; [done|].
    eapply Forall_impl; [exact Hnew|]. cbn. intros e' He'. lia.
Qed.

Lemma crawl_run_last_phase q : ∀ st,
  queue st = q →
  Forall (fun e => (entry_level max_depth e ≤ 0)%nat) q →
  queue (crawl_run (length q) st) = [].
Proof.
  induction q as [|e q IH]; intros st Hq Hlev; cbn; [done|].
  apply Forall_cons in Hlev as [He Hlev].
  destruct (crawl_iter_levels st e q Hq) as (new & Hq' & Hnew).
  destruct new as [|e' new].
  - apply IH; [by rewrite Hq', app_nil_r|done].
  - apply Forall_cons in Hnew as [He' _]. lia.
Qed.

(** Whatever is on the queue, the loop empties it. *)
Lemma crawl_run_empties L : ∀ st,
  Forall (fun e => (entry_level max_depth e ≤ L)%nat) (queue st) →
  ∃ n, queue (crawl_run n st) = [].
Proof.
  induction L as [|L IH]; intros st Hlev.
  - exists (length (queue st)). by apply crawl_run_last_phase.
  - destruct (IH (crawl_run (length (queue st)) st)) as [n Hn].
    { apply (crawl_run_phase L (queue st) []); [by rewrite app_nil_r|done|constructor]. }
    exists (length (queue st) + n)%nat. by rewrite crawl_run_add.
Qed.

Lemma crawl_loop_of_run n : ∀ st,
  queue (crawl_run n st) = [] → ∃ st', crawl_loop (S n) st = Some st'.
Proof.
  induction n as [|n IH]; intros st Hn; cbn in *.
  - rewrite Hn. by eexists.
  - destruct (queue st); [by eexists|]. by apply IH.
Qed.

Lemma crawl_loop_more_fuel fuel : ∀ st st',
  crawl_loop fuel st = Some st' → crawl_loop (S fuel) st = Some st'.
Proof.
  induction fuel as [|fuel IH]; intros st st' H; [done|].
  cbn in H. change (crawl_loop (S (S fuel)) st)
    with (match queue st with [] => Some st | _ :: _ => crawl_loop (S fuel) (crawl_iter st) end).
  destruct (queue st); [done|]. by apply IH.
Qed.

(** X1.  [crawl] returns, whatever the network and the libraries answer and
    however many links the pages hold: there is a number of iterations after
    which the queue is empty, and with any larger bound on the iterations
    [crawl] gives the same result. *)
Theorem crawl_always_returns base_url format_type w0 :
  ∃ fuel0 result, ∀ fuel, (fuel0 ≤ fuel)%nat →
    crawl net find_all_a_href html2text_handle urljoin urlparse_netloc
          max_depth base_url format_type fuel w0 = Some result.
Proof.
  unfold crawl. destruct (negb (valid_url base_url)).
  { by exists O, (Raise (ValueError ("Invalid URL: " +:+ base_url)), w0). }
  destruct (crawl_run_empties (entry_level max_depth (base_url, 0))
              (crawl_init base_url w0)) as [n Hn].
  { cbn. by repeat constructor. }
  destruct (crawl_loop_of_run n _ Hn) as [st Hst].
  exists (S n), (Ok (crawl_result format_type st), world st).
  intros fuel Hle.
  assert (Hfuel : crawl_loop fuel (crawl_init base_url w0) = Some st).
  { induction Hle as [|fuel Hle IH]; [done|]. by apply crawl_loop_more_fuel. }
  by rewrite Hfuel.
Qed.


End crawl_facts.

(** ** Depth *)

Section depth_facts.

Variable net : World -> string -> Res Response.
Variable find_all_a_href : string -> list string.
Variable html2text_handle : World -> string -> Rendering.
Variable urljoin : string -> string -> Res string.
Variable urlparse_netloc : string -> Res string.

Abbreviation crawl_run' :=
  (crawl_run net find_all_a_href html2text_handle urljoin urlparse_netloc).
Abbreviation crawl_loop' :=
  (crawl_loop net find_all_a_href html2text_handle urljoin urlparse_netloc).

(** C5.  Whatever [max_depth] is, a page stored during a [crawl] call was
    taken from exactly one queue entry, whose depth is at most [max_depth].
    With [max_depth = 0] the loop ends after its first iteration, and every
    request sent and every page stored is for [base_url]. *)
Theorem stored_pages_within_max_depth base_url w0 :
  (∀ max_depth n,
     ∃ tr, world (crawl_run' max_depth n (crawl_init base_url w0)) = w0 ++ tr ∧
       ∀ u md,
         (u, md) ∈ content_dict (crawl_run' max_depth n (crawl_init base_url w0)) →
         ∃ k, crawlings_of u tr = [k] ∧ k ≤ max_depth)
  ∧ (∀ fuel,
       ∃ st tr,
         crawl_loop' 0 (S (S fuel)) (crawl_init base_url w0) = Some st
         ∧ world st = w0 ++ tr
         ∧ (∀ u r, EvGet u r ∈ tr → u = base_url)
         ∧ (∀ u md, (u, md) ∈ content_dict st → u = base_url)).
Proof.
  split.
  - intros max_depth n. apply stored_depth_le.
  - intros fuel. by apply crawl_depth_zero.
Qed.

End depth_facts.

(** ** Extraction *)

Section extract_facts.

Variable net : World -> string -> Res Response.
Variable find_all_a_href : string -> list string.
Variable html2text_handle : World -> string -> Rendering.
Variable urljoin : string -> string -> Res string.
Variable urlparse_netloc : string -> Res string.
Variables Schema Value Client float : Type.
Variable environ_OPENAI_API_KEY : option string.
Variable OpenAI : option string -> Res Client.
Variable completions_parse :
  World -> Client -> string -> string -> string -> float -> Schema -> Res string.
Variable output_format_build : Schema -> string -> Res Value.

(** C6.  When the client could be built and the crawl returned a text that
    is empty once stripped, [extract] raises [ValueError("Content markdown is
    empty")] in the world the crawl left, and none of the events since the
    start of the call is a request to the completion service. *)
Theorem extract_empty_content_fails_before_completion
    base_url output_format api_key temperature model max_depth fuel w
    client content_markdown w1 :
  OpenAI (py_or api_key environ_OPENAI_API_KEY) = Ok client →
  crawl net find_all_a_href html2text_handle urljoin urlparse_netloc
        max_depth base_url "markdown" fuel w
    = Some (Ok (Markdown content_markdown), w1) →
  strip content_markdown = "" →
  extract net find_all_a_href html2text_handle urljoin urlparse_netloc
          Schema Value Client float environ_OPENAI_API_KEY OpenAI
          completions_parse output_format_build
          base_url output_format api_key temperature model max_depth fuel w
    = Some (Raise (ValueError "Content markdown is empty"), w1)
  ∧ ∃ tr, w1 = w ++ tr ∧ Forall (fun e => is_completion e = false) tr.
Proof.
  intros Hclient Hcrawl Hstrip. split.
  - unfold extract. rewrite Hclient, Hcrawl, Hstrip. done.
  - unfold crawl in Hcrawl.
    destruct (negb (valid_url base_url)); [done|].
    destruct (crawl_loop _ _ _ _ _ _ _ _) as [st|] eqn:Hloop; [|done].
    injection Hcrawl as _ <-.
    apply crawl_loop_run in Hloop as (n & -> & _).
    destruct (crawl_events net find_all_a_href html2text_handle urljoin
                urlparse_netloc max_depth base_url w n) as (tr & Hw & Hinv).
    exists tr. split; [done|]. apply Hinv.
Qed.

End extract_facts.

(** * Further properties *)

(** ** [_clean_markdown] *)

Lemma all_space_app u v : all_space (u +:+ v) = all_space u && all_space v.
Proof.
  induction u as [|a u IH]; [done|].
  rewrite append_cons. simpl. by rewrite IH, andb_assoc.
Qed.

Lemma all_space_repeat a k : isspace a = true → all_space (repeat_char a k) = true.
Proof. intros Ha. induction k as [|k IH]; [done|]. simpl. by rewrite Ha, IH. Qed.

Lemma all_space_sub_newlines_from s run :
  all_space (sub_newlines_from run s) = all_space s.
Proof.
  revert run. induction s as [|a s IH]; intros run; simpl sub_newlines_from.
  - destruct (flush_newlines_repeat run) as (j & _ & ->). by apply all_space_repeat.
  - destruct (Ascii.eqb_spec a LF) as [->|Hlf]; [by rewrite IH|].
    destruct (flush_newlines_repeat run) as (j & _ & ->).
    rewrite all_space_app, all_space_repeat by done. simpl. by rewrite IH.
Qed.

Lemma all_space_sub_trailing_from s k :
  all_space (sub_trailing_from k s) = all_space s.
Proof.
  revert k. induction s as [|a s IH]; intros k; simpl sub_trailing_from.
  - by apply all_space_repeat.
  - destruct (Ascii.eqb_spec a SP) as [->|Hsp]; [by rewrite IH|].
    destruct (Ascii.eqb_spec a LF) as [->|Hlf]; [simpl; by rewrite IH|].
    rewrite all_space_app, all_space_repeat by done. simpl. by rewrite IH.
Qed.

Lemma lstrip_empty s : lstrip s = "" ↔ all_space s = true.
Proof.
  induction s as [|a s IH]; simpl; [done|].
  destruct (isspace a); simpl; [done|]. split; intros; done.
Qed.

Lemma rstrip_empty s : rstrip s = "" ↔ all_space s = true.
Proof.
  induction s as [|a s IH]; simpl; [done|].
  destruct (rstrip s) as [|b r].
  - destruct (isspace a); simpl; [|split; intros; done].
    split; intros _; [by apply IH|done].
  - split; [done|]. intros [_ H]%andb_true_iff. by apply IH in H.
Qed.

Lemma strip_empty s : strip s = "" ↔ all_space s = true.
Proof.
  unfold strip. rewrite rstrip_empty.
  induction s as [|a s IH]; simpl; [done|].
  destruct (isspace a) eqn:Ha; simpl; [done|]. by rewrite Ha.
Qed.

(** X3.  On a text with no space before a line feed, [_clean_markdown] is the
    collapse of line feeds followed by [strip], and applying it twice gives
    what applying it once gives. *)
Theorem clean_markdown_idempotent_when_no_space_before_newline y :
  str_in space_newline y = false →
  _clean_markdown y = strip (sub_newlines y)
  ∧ _clean_markdown (_clean_markdown y) = _clean_markdown y.
Proof.
  intros Hsp. split.
  - unfold _clean_markdown. rewrite sub_trailing_id; [done|].
    by apply sub_newlines_from_keeps_absent.
  - by apply clean_markdown_idempotent_without_trailing_spaces.
Qed.

(** X4.  Whatever the text, the cleaned text has no white space at its ends
    ([strip] leaves it as it is) and no space before a line feed. *)
Theorem clean_markdown_output_is_trimmed x :
  strip (_clean_markdown x) = _clean_markdown x
  ∧ str_in space_newline (_clean_markdown x) = false.
Proof.
  split.
  - apply strip_strip.
  - apply strip_keeps_absent, sub_trailing_from_absent.
Qed.

(** X5.  The cleaned text is empty exactly when every character of the text
    is white space (the empty text included). *)
Theorem clean_markdown_empty_iff_all_space x :
  _clean_markdown x = "" ↔ all_space x = true.
Proof.
  unfold _clean_markdown, sub_trailing, sub_newlines.
  by rewrite strip_empty, all_space_sub_trailing_from, all_space_sub_newlines_from.
Qed.

(** ** [_same_domain], [_extract_links] and [scrape] *)

Lemma replace_leading_www h : replace "www." "" ("www." +:+ h) = replace "www." "" h.
Proof.
  unfold replace.
  change ("www." +:+ h) with (String "w" (String "w" (String "w" (String "." h)))).
  cbn [replace_from].
  assert (Hp : String.prefix "www." (String "w" (String "w" (String "w" (String "." h))))
               = true).
  { change "www." with (String "w" (String "w" (String "w" (String "." "")))).
    by rewrite !prefix_cons, prefix_nil. }
  by rewrite Hp.
Qed.

Lemma char_in_split_head c s : char_in c (split_head c s) = false.
Proof.
  induction s as [|a s IH]; [done|]. simpl.
  destruct (Ascii.eqb a c) eqn:Ha; [done|]. simpl. by rewrite Ha.
Qed.

Lemma char_in_split_head_other c d s :
  char_in c s = false → char_in c (split_head d s) = false.
Proof.
  induction s as [|a s IH]; [done|]. simpl.
  intros [Ha Hs]%orb_false_elim.
  destruct (Ascii.eqb a d); [done|]. simpl. by rewrite Ha, IH.
Qed.

Section link_facts.

Variable net : World -> string -> Res Response.
Variable find_all_a_href : string -> list string.
Variable html2text_handle : World -> string -> Rendering.
Variable urljoin : string -> string -> Res string.
Variable urlparse_netloc : string -> Res string.

Abbreviation same_domain := (_same_domain urlparse_netloc).
Abbreviation extract_links_loop := (_extract_links_loop urljoin urlparse_netloc).
Abbreviation extract_links := (_extract_links find_all_a_href urljoin urlparse_netloc).

Lemma same_domain_eq url base_url b :
  same_domain url base_url = Ok b ↔
  ∃ h1 h2, urlparse_netloc url = Ok h1 ∧ urlparse_netloc base_url = Ok h2
           ∧ b = String.eqb (replace "www." "" h1) (replace "www." "" h2).
Proof.
  unfold _same_domain, mbind, Res_bind, mret, Res_ret.
  destruct (urlparse_netloc url) as [h1|e1]; [|split; [done|by intros (? & ? & ? & _)]].
  destruct (urlparse_netloc base_url) as [h2|e2];
    [|split; [done|by intros (? & ? & _ & ? & _)]].
  split.
  - intros [= <-]. by exists h1, h2.
  - intros (? & ? & [= <-] & [= <-] & ->). done.
Qed.

(** X6.  On URLs it accepts as of the same domain, [_same_domain] behaves as
    an equivalence: from [_same_domain u v] and [_same_domain v w] follow
    [_same_domain u u], [_same_domain v u] and [_same_domain u w]. *)
Theorem same_domain_is_an_equivalence u v w :
  _same_domain urlparse_netloc u v = Ok true →
  _same_domain urlparse_netloc v w = Ok true →
  _same_domain urlparse_netloc u u = Ok true
  ∧ _same_domain urlparse_netloc v u = Ok true
  ∧ _same_domain urlparse_netloc u w = Ok true.
Proof.
  intros (hu & hv & Hu & Hv & Huv)%same_domain_eq
         (hv' & hw & Hv' & Hw & Hvw)%same_domain_eq.
  rewrite Hv in Hv'. injection Hv' as <-.
  symmetry in Huv, Hvw. apply String.eqb_eq in Huv, Hvw.
  split_and!; apply same_domain_eq.
  - exists hu, hu. by rewrite String.eqb_refl.
  - exists hv, hu. rewrite Huv. by rewrite String.eqb_refl.
  - exists hu, hw. rewrite Huv, Hvw. by rewrite String.eqb_refl.
Qed.

(** X7.  A host and the same host behind a leading "www." are of the same
    domain, in both directions. *)
Theorem same_domain_ignores_leading_www u v h :
  urlparse_netloc u = Ok h →
  urlparse_netloc v = Ok ("www." +:+ h) →
  _same_domain urlparse_netloc u v = Ok true
  ∧ _same_domain urlparse_netloc v u = Ok true.
Proof.
  intros Hu Hv. split; apply same_domain_eq.
  - exists h, ("www." +:+ h). by rewrite replace_leading_www, String.eqb_refl.
  - exists ("www." +:+ h), h. by rewrite replace_leading_www, String.eqb_refl.
Qed.

Lemma extract_links_loop_sound links hrefs base_url out :
  Forall (fun link => same_domain link base_url = Ok true
                      ∧ char_in "#" link = false ∧ char_in "?" link = false) links →
  extract_links_loop links hrefs base_url = Ok out →
  Forall (fun link => same_domain link base_url = Ok true
                      ∧ char_in "#" link = false ∧ char_in "?" link = false) out.
Proof.
  revert links. induction hrefs as [|href hrefs IH]; intros links Hlinks; cbn.
  - by intros [= <-].
  - destruct (String.eqb href "" || startswith "#" href); [by apply IH|].
    destruct (urljoin base_url href) as [absolute_url|e]; cbn; [|done].
    destruct (_same_domain _ _ base_url) as [[|]|e] eqn:Hsame; cbn; [| |done].
    + apply IH. apply Forall_app. split; [done|]. constructor; [|done].
      split_and!; [done| |].
      * apply char_in_split_head_other, char_in_split_head.
      * apply char_in_split_head.
    + by apply IH.
Qed.

(** X8.  Every link [_extract_links] returns has passed [_same_domain]
    against the base URL and holds neither a [#] nor a [?]. *)
Theorem extract_links_returns_clean_same_domain_links soup base_url out :
  _extract_links find_all_a_href urljoin urlparse_netloc soup base_url = Ok out →
  Forall (fun link => _same_domain urlparse_netloc link base_url = Ok true
                      ∧ char_in "#" link = false ∧ char_in "?" link = false) out.
Proof. by apply extract_links_loop_sound. Qed.

Lemma extract_links_loop_exact links hrefs base_url out :
  extract_links_loop links hrefs base_url = Ok out →
  out = links ++ List.filter (passes_same_domain urlparse_netloc base_url)
                   (omap (resolve_href urljoin base_url)
                         (List.filter kept_href hrefs)).
Proof.
  revert links. induction hrefs as [|href hrefs IH]; intros links; cbn.
  - intros [= <-]. by rewrite app_nil_r.
  - unfold kept_href at 1.
    destruct (String.eqb href "" || startswith "#" href); cbn; [by apply IH|].
    unfold resolve_href at 1.
    destruct (urljoin base_url href) as [absolute_url|e]; cbn; [|done].
    unfold passes_same_domain at 1.
    destruct (_same_domain _ _ base_url) as [[|]|e] eqn:Hsame; cbn; [| |done].
    + intros ->%IH. by rewrite <- app_assoc.
    + by intros ->%IH.
Qed.

(** X9.  When [_extract_links] returns, it returns exactly the anchors it
    does not skip, resolved and cut at [#] and [?], that pass
    [_same_domain]: in document order and with their repetitions. *)
Theorem extract_links_keeps_order_and_repetitions soup base_url out :
  _extract_links find_all_a_href urljoin urlparse_netloc soup base_url = Ok out →
  out = List.filter (passes_same_domain urlparse_netloc base_url)
          (omap (resolve_href urljoin base_url)
                (List.filter kept_href (find_all_a_href soup))).
Proof. intros H. by apply extract_links_loop_exact in H. Qed.

Lemma extract_links_loop_ok_iff links hrefs base_url :
  (∃ out, extract_links_loop links hrefs base_url = Ok out) ↔
  Forall (fun href =>
            kept_href href = true →
            ∃ absolute_url b,
              urljoin base_url href = Ok absolute_url
              ∧ same_domain (split_head "?" (split_head "#" absolute_url)) base_url
                = Ok b) hrefs.
Proof.
  revert links. induction hrefs as [|href hrefs IH]; intros links; cbn.
  - split; [constructor|by eexists].
  - rewrite Forall_cons. unfold kept_href at 1.
    destruct (String.eqb href "" || startswith "#" href); cbn.
    { rewrite IH. split; [by split|by intros [_ ?]]. }
    destruct (urljoin base_url href) as [absolute_url|e]; cbn.
    2:{ split; [by intros [? ?]|]. intros [H _]. by destruct H as (? & ? & ? & _). }
    destruct (_same_domain _ _ base_url) as [b|e] eqn:Hsame; cbn.
    2:{ split; [by intros [? ?]|]. intros [H _].
        destruct H as (a & b & [= <-] & Hb); [done|]. congruence. }
    rewrite IH. split; [|by intros [_ ?]].
    intros H. split; [|done]. intros _. by exists absolute_url, b.
Qed.

(** X10.  [_extract_links] returns a list exactly when, for every anchor it
    does not skip, neither [urljoin] nor [_same_domain] raises; one anchor
    that makes either raise makes the whole call raise. *)
Theorem extract_links_all_or_nothing soup base_url :
  (∃ out, _extract_links find_all_a_href urljoin urlparse_netloc soup base_url
          = Ok out) ↔
  Forall (fun href =>
            kept_href href = true →
            ∃ absolute_url b,
              urljoin base_url href = Ok absolute_url
              ∧ _same_domain urlparse_netloc
                  (split_head "?" (split_head "#" absolute_url)) base_url
                = Ok b) (find_all_a_href soup).
Proof. apply extract_links_loop_ok_iff. Qed.

Lemma scrape_ok_eq url w md w' :
  scrape net html2text_handle url w = (Ok md, w') ↔
  valid_url url = true
  ∧ ∃ resp raw,
      net w url = Ok resp ∧ page_ok resp = true
      ∧ html2text_handle (w ++ [EvGet url (Ok resp)]) (text resp) = Rendered raw
      ∧ md = _clean_markdown raw
      ∧ w' = w ++ [EvGet url (Ok resp)].
Proof.
  unfold scrape, try_except, mbind, M_bind, requests_get, raise_for_status, raise,
    emit, page_ok, mret, M_ret, converter_handle.
  destruct (valid_url url); cbn; [|split; [done|by intros [? _]]].
  destruct (net w url) as [resp|e]; cbn.
  2:{ split; [by destruct e|]. by intros (_ & ? & ? & ? & _). }
  destruct (http_error resp) as [msg|] eqn:Herr; cbn.
  { split; [done|]. intros (_ & resp' & raw & [= <-] & Hok & _).
    by rewrite Herr in Hok. }
  destruct (str_in "text/html" (content_type resp)) eqn:Hct; cbn.
  2:{ split; [done|]. intros (_ & resp' & raw & [= <-] & Hok & _).
      by rewrite Herr, Hct in Hok. }
  destruct (html2text_handle (w ++ [EvGet url (Ok resp)]) (text resp))
    as [raw|msg] eqn:Hraw; cbn.
  - split.
    + intros [= <- <-]. split; [done|]. exists resp, raw. by rewrite Herr, Hct.
    + intros (_ & resp' & raw' & [= <-] & _ & Hraw' & -> & ->).
      rewrite Hraw in Hraw'. by injection Hraw' as <-.
  - split; [done|]. intros (_ & resp' & raw' & [= <-] & _ & Hraw' & _).
    by rewrite Hraw in Hraw'.
Qed.

(** X11.  [scrape] returns a text exactly when the URL is valid, the one
    request it sends is answered without error status and with an HTML
    content type, and parsing and rendering the body, in the state the
    converter is in after that request, does not raise; the text is then the
    cleaned rendering. *)
Theorem scrape_succeeds_iff url w md w' :
  scrape net html2text_handle url w = (Ok md, w') ↔
  valid_url url = true
  ∧ ∃ resp raw,
      net w url = Ok resp ∧ page_ok resp = true
      ∧ html2text_handle (w ++ [EvGet url (Ok resp)]) (text resp) = Rendered raw
      ∧ md = _clean_markdown raw
      ∧ w' = w ++ [EvGet url (Ok resp)].
Proof. apply scrape_ok_eq. Qed.

(** X12.  [scrape] raises nothing but [ValueError] and [ConnectionError], and
    [ConnectionError] exactly when the URL is valid and the request raised a
    [RequestException] or was answered with an error status.  It sends at most
    one request. *)
Theorem scrape_error_classes url w :
  match fst (scrape net html2text_handle url w) with
  | Ok _ | Raise (ValueError _) | Raise (ConnectionError _) => True
  | Raise (RequestException _) | Raise (OtherException _) => False
  end
  ∧ ((∃ m, fst (scrape net html2text_handle url w) = Raise (ConnectionError m)) ↔
     valid_url url = true
     ∧ ((∃ m, net w url = Raise (RequestException m))
        ∨ ∃ resp m, net w url = Ok resp ∧ http_error resp = Some m))
  ∧ (snd (scrape net html2text_handle url w) = w
     ∨ snd (scrape net html2text_handle url w) = w ++ [EvGet url (net w url)]).
Proof.
  split_and!; [| |apply scrape_world].
  - unfold scrape, try_except, mbind, M_bind, requests_get, raise_for_status, raise,
      emit, mret, M_ret, converter_handle.
    destruct (valid_url url); cbn; [|done].
    destruct (net w url) as [resp|e]; cbn; [|by destruct e].
    destruct (http_error resp); cbn; [done|].
    destruct (str_in _ _); cbn; [|done].
    by destruct (html2text_handle _ _).
  - unfold scrape, try_except, mbind, M_bind, requests_get, raise_for_status, raise,
      emit, mret, M_ret, converter_handle.
    destruct (valid_url url); cbn; [|split; [by intros [? ?]|by intros [? _]]].
    destruct (net w url) as [resp|e]; cbn.
    + destruct (http_error resp) as [msg|] eqn:Herr; cbn.
      * split; [|by eexists]. intros _. split; [done|]. right. by exists resp, msg.
      * split.
        -- destruct (str_in _ _); cbn; [|by intros [? ?]].
           destruct (html2text_handle _ _); cbn; by intros [? ?].
        -- intros (_ & [[m ?]|(resp' & m & [= <-] & Hm)]); [done|congruence].
    + split.
      * intros [m Hm]. split; [done|]. left. destruct e; cbn in Hm; try done.
        by eexists.
      * intros (_ & [[m [= ->]]|(resp' & m & ? & _)]); [|done]. by eexists.
Qed.

End link_facts.

(** ** More on the crawl *)

Lemma crawl_urls_app w1 w2 : crawl_urls (w1 ++ w2) = crawl_urls w1 ++ crawl_urls w2.
Proof. induction w1 as [|[] w1 IH]; cbn; by rewrite ?IH. Qed.

Lemma crawl_depths_app w1 w2 :
  crawl_depths (w1 ++ w2) = crawl_depths w1 ++ crawl_depths w2.
Proof. induction w1 as [|[] w1 IH]; cbn; by rewrite ?IH. Qed.

Lemma completions_of_app w1 w2 :
  completions_of (w1 ++ w2) = completions_of w1 ++ completions_of w2.
Proof. induction w1 as [|[] w1 IH]; cbn; by rewrite ?IH. Qed.

Lemma completions_of_quiet tr :
  Forall (fun e => is_completion e = false) tr → completions_of tr = [].
Proof. induction 1 as [|[] tr He _ IH]; cbn in *; done. Qed.

Lemma crawl_urls_crawlings u w : u ∈ crawl_urls w ↔ crawlings_of u w ≠ [].
Proof.
  induction w as [|[url d|url|url r|doc] w IH]; cbn; try done.
  - split; [by intros ?%elem_of_nil|done].
  - rewrite elem_of_cons, IH.
    destruct (String.eqb_spec url u) as [->|Hne]; [by split; [|left]|].
    split; [by intros [?|?]|by right].
Qed.

Lemma dict_setitem_elem_eq k v d u md :
  (u, md) ∈ dict_setitem k v d → (u, md) ∈ d ∨ (u = k ∧ md = v).
Proof.
  induction d as [|[k' v'] d IH]; cbn.
  - intros H%list_elem_of_singleton. right. by injection H.
  - destruct (String.eqb k' k).
    + intros [H|H]%elem_of_cons; [right; by injection H|]. left. by right.
    + intros [H|H]%elem_of_cons; [left; rewrite H; by left|].
      destruct (IH H) as [?|?]; [left; by right|by right].
Qed.

Lemma dict_setitem_new_key k v d :
  k ∉ d.*1 → (dict_setitem k v d).*1 = d.*1 ++ [k].
Proof.
  induction d as [|[k' v'] d IH]; cbn; [done|].
  intros [Hne Hk]%not_elem_of_cons.
  apply not_eq_sym, String.eqb_neq in Hne. rewrite Hne. cbn. by rewrite IH.
Qed.

Section crawl_more_facts.

Variable net : World -> string -> Res Response.
Variable find_all_a_href : string -> list string.
Variable html2text_handle : World -> string -> Rendering.
Variable urljoin : string -> string -> Res string.
Variable urlparse_netloc : string -> Res string.
Variable max_depth : Z.

Abbreviation scrape_ := (scrape net html2text_handle).
Abbreviation extract_links_ := (_extract_links find_all_a_href urljoin urlparse_netloc).
Abbreviation crawl_body_ :=
  (crawl_body net find_all_a_href html2text_handle urljoin urlparse_netloc max_depth).
Abbreviation crawl_iter_ :=
  (crawl_iter net find_all_a_href html2text_handle urljoin urlparse_netloc max_depth).
Abbreviation crawl_run_ :=
  (crawl_run net find_all_a_href html2text_handle urljoin urlparse_netloc max_depth).
Abbreviation crawl_loop_ :=
  (crawl_loop net find_all_a_href html2text_handle urljoin urlparse_netloc max_depth).
Abbreviation crawl_ :=
  (crawl net find_all_a_href html2text_handle urljoin urlparse_netloc max_depth).

(** The two ends of the loop body.  Either nothing is stored and nothing
    enqueued: the first request failed or was not HTML, or [scrape] raised.
    Or both requests were answered with an HTML page: the rendering of the
    second is stored, and the links of the first are enqueued. *)
Lemma crawl_body_cases url depth st :
  let w1 := at_request (world st) url depth in
  let r1 := net w1 url in
  let seen : gset string := {[url]} ∪ visited st in
  (∃ tail,
     crawl_body_ url depth st =
       (Ok tt, mkCrawlSt (queue st) seen (content_dict st) (w1 ++ EvGet url r1 :: tail))
     ∧ (tail = []
        ∨ ∃ resp1 r2, r1 = Ok resp1 ∧ page_ok resp1 = true ∧ tail = [EvGet url r2]))
  ∨ (∃ resp1 resp2 raw links,
       r1 = Ok resp1 ∧ page_ok resp1 = true
       ∧ net (w1 ++ [EvGet url r1]) url = Ok resp2 ∧ page_ok resp2 = true
       ∧ html2text_handle (w1 ++ [EvGet url r1; EvGet url (Ok resp2)]) (text resp2)
         = Rendered raw
       ∧ (links = [] ∨ depth < max_depth ∧ extract_links_ (text resp1) url = Ok links)
       ∧ crawl_body_ url depth st =
           (Ok tt, mkCrawlSt (queue st ++ new_entries seen links depth) seen
                     (dict_setitem url (_clean_markdown raw) (content_dict st))
                     (w1 ++ [EvGet url r1; EvGet url (Ok resp2)]))).
Proof.
  intros w1 r1 seen. subst w1 seen. unfold at_request in *.
  open_crawl_body st. fold r1.
  destruct r1 as [resp1|e] eqn:Hr1; cbn.
  2:{ left. exists []. auto. }
  unfold page_ok.
  destruct (http_error resp1) as [msg|] eqn:Herr; cbn.
  { left. exists []. auto. }
  destruct (str_in "text/html" (content_type resp1)) eqn:Hct; cbn.
  2:{ left. exists []. auto. }
  set (w2 := (world st ++ [EvCrawling url depth; EvVisited url]) ++ [EvGet url (Ok resp1)]).
  destruct (scrape_ url w2) as [[md|e] w3] eqn:Hs; cbn.
  2:{ left. destruct (scrape_world net html2text_handle url w2) as [H|H];
        rewrite Hs in H; cbn in H; subst w3.
      - exists []. split; [done|]. by left.
      - exists [EvGet url (net w2 url)]. unfold w2. rewrite <- !app_assoc. cbn.
        split; [done|]. right. eexists resp1, _. by rewrite Herr, Hct. }
  apply scrape_ok_eq in Hs as (_ & resp2 & raw & Hnet2 & Hok2 & Hraw & -> & ->).
  right. exists resp1, resp2, raw.
  assert (Hw : w2 ++ [EvGet url (Ok resp2)]
               = (world st ++ [EvCrawling url depth; EvVisited url])
                 ++ [EvGet url (Ok resp1); EvGet url (Ok resp2)]).
  { unfold w2. by rewrite <- !app_assoc. }
  rewrite Hw in *. unfold page_ok in Hok2.
  destruct (depth <? max_depth) eqn:Hd; cbn.
  2:{ exists []. unfold new_entries; cbn. rewrite app_nil_r.
      rewrite Herr, Hct. split_and!; auto. }
  destruct (extract_links_ (text resp1) url) as [links|e] eqn:Hlinks; cbn.
  2:{ exists []. unfold new_entries; cbn. rewrite app_nil_r.
      rewrite Herr, Hct. split_and!; auto. }
  rewrite enqueue_links_eq; cbn. exists links.
  apply Z.ltb_lt in Hd. rewrite Herr, Hct. split_and!; auto.
Qed.

(** Induction over the iterations of the loop, by the three things an
    iteration on a non-empty queue can do: skip the entry, take it up and
    store nothing, take it up and store its page. *)
Lemma crawl_run_induction (P : CrawlSt → World → Prop) base_url w0 :
  P (crawl_init base_url w0) [] →
  (∀ st tr e rest,
     crawl_inv max_depth st tr → P st tr → queue st = e :: rest →
     P (set_queue rest st) tr) →
  (∀ st tr url depth rest tail,
     crawl_inv max_depth st tr → P st tr →
     queue st = (url, depth) :: rest → url ∉ visited st → depth ≤ max_depth →
     let r1 := net (at_request (world st) url depth) url in
     (tail = [] ∨ ∃ resp1 r2, r1 = Ok resp1 ∧ page_ok resp1 = true ∧ tail = [EvGet url r2]) →
     let seg := EvCrawling url depth :: EvVisited url :: EvGet url r1 :: tail in
     P (mkCrawlSt rest ({[url]} ∪ visited st) (content_dict st) (world st ++ seg))
       (tr ++ seg)) →
  (∀ st tr url depth rest resp1 resp2 raw links,
     crawl_inv max_depth st tr → P st tr →
     queue st = (url, depth) :: rest → url ∉ visited st → depth ≤ max_depth →
     net (at_request (world st) url depth) url = Ok resp1 → page_ok resp1 = true →
     net (at_request (world st) url depth ++ [EvGet url (Ok resp1)]) url = Ok resp2 →
     page_ok resp2 = true →
     let seg := [EvCrawling url depth; EvVisited url;
                 EvGet url (Ok resp1); EvGet url (Ok resp2)] in
     html2text_handle (world st ++ seg) (text resp2) = Rendered raw →
     (links = [] ∨ depth < max_depth ∧ extract_links_ (text resp1) url = Ok links) →
     P (mkCrawlSt (rest ++ new_entries ({[url]} ∪ visited st) links depth)
                  ({[url]} ∪ visited st)
                  (dict_setitem url (_clean_markdown raw) (content_dict st))
                  (world st ++ seg))
       (tr ++ seg)) →
  ∀ n, ∃ tr, world (crawl_run_ n (crawl_init base_url w0)) = w0 ++ tr
             ∧ crawl_inv max_depth (crawl_run_ n (crawl_init base_url w0)) tr
             ∧ P (crawl_run_ n (crawl_init base_url w0)) tr.
Proof.
  intros Hinit Hskip Hfail Hstore n.
  assert (Hgen : ∀ n st tr,
            world st = w0 ++ tr → crawl_inv max_depth st tr → P st tr →
            ∃ tr', world (crawl_run_ n st) = w0 ++ tr'
                   ∧ crawl_inv max_depth (crawl_run_ n st) tr'
                   ∧ P (crawl_run_ n st) tr').
  { clear n. induction n as [|n IH]; intros st tr Hw Hinv HP; [by exists tr|].
    cbn [crawl_run]. 
    destruct (crawl_iter_inv net find_all_a_href html2text_handle urljoin
                urlparse_netloc max_depth st tr Hinv) as (seg & Hseg & Hinv').
    apply (IH _ (tr ++ seg)); [by rewrite Hseg, Hw, app_assoc|done|].
    destruct (crawl_iter_cases net find_all_a_href html2text_handle urljoin
                urlparse_netloc max_depth st)
      as [[_ Heq]|(url & depth & rest & Hq & [[_ Heq]|(Hnew & Hle & Heq)])].
    - rewrite Heq in *. rewrite <- (app_nil_r (world st)) in Hseg at 1.
      apply app_inv_head in Hseg as <-. by rewrite app_nil_r.
    - rewrite Heq in *. cbn in Hseg. rewrite <- (app_nil_r (world st)) in Hseg at 1.
      apply app_inv_head in Hseg as <-. rewrite app_nil_r. by eapply Hskip.
    - rewrite Heq in *. clear Heq.
      destruct (crawl_body_cases url depth (set_queue rest st))
        as [(tail & Hbody & Htail)|(resp1 & resp2 & raw & links & Hr1 & Hok1 & Hr2
                                     & Hok2 & Hraw & Hlinks & Hbody)];
        rewrite Hbody in *; cbn [snd world set_queue queue visited content_dict] in *.
      + unfold at_request in Hseg. rewrite <- app_assoc in Hseg.
        apply app_inv_head in Hseg as <-.
        unfold at_request. rewrite <- app_assoc.
        by apply (Hfail st tr url depth rest tail).
      + rewrite Hr1 in Hseg, Hr2, Hraw |- *.
        unfold at_request in Hseg. rewrite <- app_assoc in Hseg.
        apply app_inv_head in Hseg as <-.
        assert (Hw' : at_request (world st) url depth
                       ++ [EvGet url (Ok resp1); EvGet url (Ok resp2)]
                      = world st ++ [EvCrawling url depth; EvVisited url;
                                     EvGet url (Ok resp1); EvGet url (Ok resp2)]).
        { unfold at_request. by rewrite <- app_assoc. }
        rewrite Hw' in *.
        by apply (Hstore st tr url depth rest resp1 resp2 raw links). }
  apply (Hgen n _ []); [by rewrite app_nil_r|apply crawl_init_inv|done].
Qed.

Lemma new_entries_elem seen links depth u k :
  (u, k) ∈ new_entries seen links depth → u ∈ links ∧ k = depth + 1.
Proof.
  unfold new_entries. intros (link & [= -> ->] & Hin)%list_elem_of_fmap.
  by apply list_elem_of_filter in Hin as [_ ?].
Qed.

(** X13.  With a negative [max_depth] a crawl of a valid URL sends no request
    and returns the empty result. *)
Theorem crawl_negative_depth_fetches_nothing base_url format_type fuel w0 :
  valid_url base_url = true →
  max_depth < 0 →
  crawl_ base_url format_type (S (S fuel)) w0
  = Some (Ok (if String.eqb format_type "markdown" then Markdown "" else Json []), w0).
Proof.
  intros Hvalid Hneg. unfold crawl. rewrite Hvalid. cbn.
  unfold crawl_iter. cbn.
  apply Z.ltb_lt in Hneg. rewrite Hneg, orb_true_r. cbn.
  unfold crawl_result. cbn. by destruct (String.eqb format_type "markdown").
Qed.

(** X14.  When the request for a valid [base_url] raises, or is answered with
    an error status or with a content type that is not HTML, a crawl with
    [max_depth >= 0] sends no other request and returns the empty result. *)
Theorem crawl_unreachable_base_is_empty base_url format_type fuel w0 :
  valid_url base_url = true →
  0 ≤ max_depth →
  match net (at_request w0 base_url 0) base_url with
  | Ok resp => page_ok resp = false
  | Raise _ => True
  end →
  crawl_ base_url format_type (S (S fuel)) w0
  = Some (Ok (if String.eqb format_type "markdown" then Markdown "" else Json []),
          at_request w0 base_url 0
          ++ [EvGet base_url (net (at_request w0 base_url 0) base_url)]).
Proof.
  intros Hvalid Hd Hbad. unfold crawl. rewrite Hvalid. cbn [negb].
  assert (Hiter : crawl_iter_ (crawl_init base_url w0)
                  = mkCrawlSt [] ({[base_url]} ∪ ∅) []
                      (at_request w0 base_url 0
                       ++ [EvGet base_url (net (at_request w0 base_url 0) base_url)])).
  { unfold crawl_iter. cbn [crawl_init queue set_queue visited].
    rewrite bool_decide_eq_false_2 by apply not_elem_of_empty.
    apply Z.ltb_ge in Hd. rewrite Hd. cbn [orb].
    destruct (crawl_body_cases base_url 0 (set_queue [] (crawl_init base_url w0)))
      as [(tail & -> & Htail)|(resp1 & resp2 & raw & links & Hr1 & Hok1 & _)];
      cbn [world set_queue crawl_init visited queue content_dict] in *.
    - cbn. destruct Htail as [->|(resp1 & r2 & Hr1 & Hok1 & _)]; [done|].
      rewrite Hr1 in Hbad. congruence.
    - rewrite Hr1 in Hbad. congruence. }
  cbn [crawl_loop crawl_init queue]. rewrite Hiter. cbn.
  unfold crawl_result. cbn. by destruct (String.eqb format_type "markdown").
Qed.

(** X15.  A crawl stays on the domain of [base_url]: every entry put on the
    queue, every URL requested and every URL stored is [base_url] itself or
    passes [_same_domain] against it. *)
Theorem crawl_stays_on_domain base_url w0 n :
  let on_domain u :=
    u = base_url ∨ _same_domain urlparse_netloc u base_url = Ok true in
  ∃ tr, world (crawl_run_ n (crawl_init base_url w0)) = w0 ++ tr
        ∧ (∀ u k, (u, k) ∈ queue (crawl_run_ n (crawl_init base_url w0)) → on_domain u)
        ∧ (∀ u r, EvGet u r ∈ tr → on_domain u)
        ∧ (∀ u md, (u, md) ∈ content_dict (crawl_run_ n (crawl_init base_url w0)) →
                   on_domain u).
Proof.
  intros on_domain.
  destruct (crawl_run_induction
              (fun st tr => (∀ u k, (u, k) ∈ queue st → on_domain u)
                            ∧ (∀ u r, EvGet u r ∈ tr → on_domain u)
                            ∧ (∀ u md, (u, md) ∈ content_dict st → on_domain u))
              base_url w0) with (n := n) as (tr & Hw & _ & HP).
  - split_and!.
    + intros u k H%list_elem_of_singleton. left. congruence.
    + by intros u r ?%elem_of_nil.
    + by intros u md ?%elem_of_nil.
  - intros st tr e rest _ (Hq & Hg & Hc) Heq. split_and!; [|done..].
    intros u k Hin. apply (Hq u k). rewrite Heq. by right.
  - intros st tr url depth rest tail _ (Hq & Hg & Hc) Heq _ _ r1 Htail seg.
    assert (Hurl : on_domain url) by (apply (Hq url depth); rewrite Heq; by left).
    split_and!; cbn.
    + intros u k Hin. apply (Hq u k). rewrite Heq. by right.
    + intros u r [Hin|Hin]%elem_of_app; [by eapply Hg|]. subst seg.
      destruct Htail as [->|(? & ? & _ & _ & ->)];
        repeat (apply elem_of_cons in Hin as [Hin|Hin]; [congruence|]);
        by apply elem_of_nil in Hin.
    + done.
  - intros st tr url depth rest resp1 resp2 raw links _ (Hq & Hg & Hc) Heq _ _
           _ _ _ _ seg _ Hlinks.
    assert (Hurl : on_domain url) by (apply (Hq url depth); rewrite Heq; by left).
    split_and!; cbn.
    + intros u k [Hin|Hin]%elem_of_app.
      { apply (Hq u k). rewrite Heq. by right. }
      apply new_entries_elem in Hin as [Hin _].
      destruct Hlinks as [->|[_ Hl]]; [by apply elem_of_nil in Hin|].
      apply _extract_links_same_domain in Hl.
      rewrite Forall_forall in Hl. specialize (Hl u Hin).
      destruct Hurl as [->|Hurl]; [by right|]. right.
      apply same_domain_eq in Hl as (h1 & h2 & H1 & H2 & E1).
      apply same_domain_eq in Hurl as (h2' & h3 & H2' & H3 & E2).
      rewrite H2 in H2'. injection H2' as <-.
      apply same_domain_eq. exists h1, h3. split_and!; [done..|].
      symmetry in E1, E2. apply String.eqb_eq in E1, E2.
      by rewrite E1, E2, String.eqb_refl.
    + intros u r [Hin|Hin]%elem_of_app; [by eapply Hg|]. subst seg.
      repeat (apply elem_of_cons in Hin as [Hin|Hin]; [congruence|]).
      by apply elem_of_nil in Hin.
    + intros u md [Hin| ->]%dict_setitem_elem; [by eapply Hc|done].
  - exists tr. by destruct HP as (? & ? & ?).
Qed.

(** The events of an iteration are about its own URL. *)
Lemma fetches_of_iteration_other u url depth r1 tail :
  u ≠ url →
  (tail = [] ∨ ∃ r2, tail = [EvGet url r2]) →
  fetches_of u (EvCrawling url depth :: EvVisited url :: EvGet url r1 :: tail) = [].
Proof.
  intros Hne%not_eq_sym%String.eqb_neq [->|[r2 ->]]; cbn; by rewrite ?Hne.
Qed.

Lemma stored_is_not_next st tr url u md :
  crawl_inv max_depth st tr → url ∉ visited st → (u, md) ∈ content_dict st → u ≠ url.
Proof.
  intros Hinv Hnew Hin ->.
  apply (inv_stored _ _ _ Hinv) in Hin.
  by destruct (inv_unvisited _ _ _ Hinv url Hnew) as [_ ?].
Qed.

(** X16.  Every stored page was requested exactly twice in the call, one
    request right after the other, both answered with an HTML page without
    error status; the stored text is the cleaned rendering of the second
    answer (the one [scrape] got), in the state the converter was in then. *)
Theorem stored_page_comes_from_second_fetch base_url w0 n :
  ∃ tr, world (crawl_run_ n (crawl_init base_url w0)) = w0 ++ tr ∧
    ∀ u md, (u, md) ∈ content_dict (crawl_run_ n (crawl_init base_url w0)) →
      ∃ resp1 resp2 raw pre post depth,
        let seg := [EvCrawling u depth; EvVisited u;
                    EvGet u (Ok resp1); EvGet u (Ok resp2)] in
        tr = pre ++ seg ++ post
        ∧ fetches_of u tr = [Ok resp1; Ok resp2]
        ∧ page_ok resp1 = true ∧ page_ok resp2 = true
        ∧ html2text_handle (w0 ++ pre ++ seg) (text resp2) = Rendered raw
        ∧ md = _clean_markdown raw.
Proof.
  destruct (crawl_run_induction
              (fun st tr =>
                 world st = w0 ++ tr
                 ∧ ∀ u md, (u, md) ∈ content_dict st →
                     ∃ resp1 resp2 raw pre post depth,
                       let seg := [EvCrawling u depth; EvVisited u;
                                   EvGet u (Ok resp1); EvGet u (Ok resp2)] in
                       tr = pre ++ seg ++ post
                       ∧ fetches_of u tr = [Ok resp1; Ok resp2]
                       ∧ page_ok resp1 = true ∧ page_ok resp2 = true
                       ∧ html2text_handle (w0 ++ pre ++ seg) (text resp2) = Rendered raw
                       ∧ md = _clean_markdown raw)
              base_url w0) with (n := n) as (tr & Hw & _ & _ & HP).
  - split; [by rewrite app_nil_r|]. by intros u md ?%elem_of_nil.
  - by intros st tr e rest _ [Hw HP] _.
  - intros st tr url depth rest tail Hinv [Hw HP] Heq Hnew _ r1 Htail seg.
    split; [cbn; by rewrite Hw, app_assoc|].
    intros u md Hin. cbn in Hin.
    destruct (HP u md Hin) as (resp1 & resp2 & raw & pre & post & k & Htr & Hf & Hrest).
    exists resp1, resp2, raw, pre, (post ++ seg), k. cbn. split_and!; [| |apply Hrest..].
    + rewrite Htr. cbn. by rewrite <- !app_assoc.
    + rewrite fetches_of_app, Hf. subst seg.
      rewrite fetches_of_iteration_other; [done|by eapply stored_is_not_next|].
      destruct Htail as [->|(? & r2 & _ & _ & ->)]; eauto.
  - intros st tr url depth rest resp1 resp2 raw links Hinv [Hw HP] Heq Hnew _
           Hr1 Hok1 Hr2 Hok2 seg Hraw _.
    split; [cbn; by rewrite Hw, app_assoc|].
    intros u md Hin. cbn in Hin. apply dict_setitem_elem_eq in Hin as [Hin|[-> ->]].
    + destruct (HP u md Hin)
        as (resp1' & resp2' & raw' & pre & post & k & Htr & Hf & Hrest).
      exists resp1', resp2', raw', pre, (post ++ seg), k. cbn.
      split_and!; [| |apply Hrest..].
      * rewrite Htr. cbn. by rewrite <- !app_assoc.
      * rewrite fetches_of_app, Hf. subst seg.
        rewrite fetches_of_iteration_other; [done|by eapply stored_is_not_next|eauto].
    + exists resp1, resp2, raw, tr, [], depth. subst seg. cbn zeta.
      split_and!.
      * by rewrite app_nil_r.
      * rewrite fetches_of_app.
        destruct (inv_unvisited _ _ _ Hinv url Hnew) as [-> _].
        cbn. by rewrite String.eqb_refl.
      * done.
      * done.
      * rewrite <- Hraw, Hw. by rewrite <- app_assoc.
      * done.
  - by exists tr.
Qed.

(** X17.  The loop takes entries up in the order of their depth: the depths
    of the entries taken up never decrease, the queue is sorted by depth, and
    the depths on the queue differ by at most one. *)
Theorem crawl_is_breadth_first base_url w0 n :
  ∃ tr, world (crawl_run_ n (crawl_init base_url w0)) = w0 ++ tr
        ∧ StronglySorted Z.le (crawl_depths tr)
        ∧ StronglySorted Z.le (queue (crawl_run_ n (crawl_init base_url w0))).*2
        ∧ ∀ k k', k ∈ (queue (crawl_run_ n (crawl_init base_url w0))).*2 →
                  k' ∈ (queue (crawl_run_ n (crawl_init base_url w0))).*2 →
                  k' ≤ k + 1.
Proof.
  destruct (crawl_run_induction
              (fun st tr =>
                 StronglySorted Z.le (crawl_depths tr)
                 ∧ (∀ d k, d ∈ crawl_depths tr → k ∈ (queue st).*2 → d ≤ k)
                 ∧ StronglySorted Z.le (queue st).*2
                 ∧ ∀ k k', k ∈ (queue st).*2 → k' ∈ (queue st).*2 → k' ≤ k + 1)
              base_url w0) with (n := n) as (tr & Hw & _ & HP).
  - cbn. split_and!.
    + constructor.
    + by intros d k ?%elem_of_nil.
    + repeat constructor.
    + intros k k' ->%list_elem_of_singleton ->%list_elem_of_singleton. lia.
  - intros st tr e rest _ (Hd & Hdq & Hq & Hspan) Heq. rewrite Heq in *.
    cbn in *. apply StronglySorted_cons in Hq as [_ Hq].
    split_and!; [done| |done|].
    + intros d k ? ?. apply Hdq; [done|by right].
    + intros k k' ? ?. apply Hspan; by right.
  - intros st tr url depth rest tail _ (Hd & Hdq & Hq & Hspan) Heq _ _ r1 Htail seg.
    rewrite Heq in *. cbn in *.
    apply StronglySorted_cons in Hq as [Hhead Hq]. rewrite Forall_forall in Hhead.
    assert (Hseg : crawl_depths seg = [depth]).
    { subst seg. by destruct Htail as [->|(? & ? & _ & _ & ->)]. }
    rewrite crawl_depths_app, Hseg. split_and!; [| |done|].
    + apply StronglySorted_app_2; [|done|repeat constructor].
      intros d k Hin ->%list_elem_of_singleton. apply Hdq; [done|by left].
    + intros d k [Hin| ->%list_elem_of_singleton]%elem_of_app Hk.
      * apply Hdq; [done|by right].
      * by apply Hhead.
    + intros k k' ? ?. apply Hspan; by right.
  - intros st tr url depth rest resp1 resp2 raw links _ (Hd & Hdq & Hq & Hspan) Heq
           _ _ _ _ _ _ seg _ _.
    rewrite Heq in *. cbn in *.
    apply StronglySorted_cons in Hq as [Hhead Hq]. rewrite Forall_forall in Hhead.
    rewrite crawl_depths_app. cbn. rewrite fmap_app.
    assert (Hnew : ∀ k, k ∈ (new_entries ({[url]} ∪ visited st) links depth).*2 →
                        k = depth + 1).
    { intros k ([u k'] & -> & Hin)%list_elem_of_fmap.
      by apply new_entries_elem in Hin as [_ ->]. }
    assert (Hrest : ∀ k, k ∈ rest.*2 → depth ≤ k ∧ k ≤ depth + 1).
    { intros k Hk. split; [by apply Hhead|]. apply Hspan; [by left|by right]. }
    split_and!.
    + apply StronglySorted_app_2; [|done|repeat constructor].
      intros d k Hin ->%list_elem_of_singleton. apply Hdq; [done|by left].
    + intros d k [Hin| ->%list_elem_of_singleton]%elem_of_app
             [Hk|Hk%Hnew]%elem_of_app.
      * apply Hdq; [done|by right].
      * assert (d ≤ depth) by (apply Hdq; [done|by left]). lia.
      * by apply Hrest.
      * lia.
    + apply StronglySorted_app_2; [|done|].
      * intros k k' Hk%Hrest ->%Hnew. lia.
      * clear Hnew. unfold new_entries.
        induction (filter _ links) as [|l ls IH]; cbn; constructor; [done|].
        apply Forall_forall. intros k ([u k'] & -> & (? & [= -> ->] & _)%list_elem_of_fmap)%list_elem_of_fmap.
        cbn. lia.
    + intros k k' [Hk%Hrest|Hk%Hnew]%elem_of_app [Hk'%Hrest|Hk'%Hnew]%elem_of_app; lia.
  - exists tr. by destruct HP as (? & _ & ? & ?).
Qed.

(** X18.  The stored pages are in the order in which their URLs were taken
    up by the loop, no URL is taken up twice and no URL is stored twice. *)
Theorem result_is_in_visit_order base_url w0 n :
  ∃ tr, world (crawl_run_ n (crawl_init base_url w0)) = w0 ++ tr
        ∧ (content_dict (crawl_run_ n (crawl_init base_url w0))).*1
            `sublist_of` crawl_urls tr
        ∧ NoDup (crawl_urls tr)
        ∧ NoDup (content_dict (crawl_run_ n (crawl_init base_url w0))).*1.
Proof.
  destruct (crawl_run_induction
              (fun st tr => (content_dict st).*1 `sublist_of` crawl_urls tr
                            ∧ NoDup (crawl_urls tr))
              base_url w0) with (n := n) as (tr & Hw & _ & Hsub & Hnd).
  - split; [done|constructor].
  - done.
  - intros st tr url depth rest tail Hinv (Hsub & Hnd) Heq Hnew _ r1 Htail seg.
    assert (Hseg : crawl_urls seg = [url]).
    { subst seg. by destruct Htail as [->|(? & ? & _ & _ & ->)]. }
    rewrite crawl_urls_app, Hseg. cbn. split; [by apply sublist_inserts_r|].
    apply NoDup_app. split_and!; [done| |repeat constructor; by intros ?%elem_of_nil].
    intros u Hu ->%list_elem_of_singleton. apply crawl_urls_crawlings in Hu.
    by destruct (inv_unvisited _ _ _ Hinv url Hnew) as [_ ?].
  - intros st tr url depth rest resp1 resp2 raw links Hinv (Hsub & Hnd) Heq Hnew _
           _ _ _ _ seg _ _.
    assert (Hfresh : url ∉ crawl_urls tr).
    { intros Hu%crawl_urls_crawlings.
      by destruct (inv_unvisited _ _ _ Hinv url Hnew) as [_ ?]. }
    rewrite crawl_urls_app. cbn. split.
    + rewrite dict_setitem_new_key.
      * by apply sublist_app.
      * intros Hin. apply Hfresh. by eapply elem_of_sublist.
    + apply NoDup_app. split_and!; [done| |repeat constructor; by intros ?%elem_of_nil].
      by intros u Hu ->%list_elem_of_singleton.
  - exists tr. split_and!; [done..|]. by eapply sublist_NoDup.
Qed.

End crawl_more_facts.

(** ** The result of the crawl and [extract] *)

Lemma join_head sep x l : ∃ t, join sep (x :: l) = x +:+ t.
Proof.
  destruct l as [|y l]; cbn.
  - exists "". by rewrite append_nil_r.
  - by eexists.
Qed.

Lemma markdown_empty_iff st s :
  crawl_result "markdown" st = Markdown s → (strip s = "" ↔ content_dict st = []).
Proof.
  unfold crawl_result. cbn. intros [= <-].
  destruct (content_dict st) as [|[url content] d]; [done|].
  split; [|done]. rewrite strip_empty. cbn [map].
  destruct (join_head (nl +:+ nl +:+ "---" +:+ nl +:+ nl)
              ("URL: " +:+ url +:+ nl +:+ nl +:+ content)
              (map (fun '(url, content) => "URL: " +:+ url +:+ nl +:+ nl +:+ content) d))
    as [t ->].
  by rewrite !all_space_app.
Qed.

(** X19.  The markdown a crawl returns is empty or white space exactly when
    no page was stored. *)
Theorem markdown_result_empty_iff_no_page st :
  ∃ s, crawl_result "markdown" st = Markdown s
       ∧ (strip s = "" ↔ content_dict st = []).
Proof.
  assert (H : ∃ s, crawl_result "markdown" st = Markdown s) by by eexists.
  destruct H as [s Hs]. exists s. split; [done|]. by apply markdown_empty_iff.
Qed.

Section extract_more_facts.

Variable net : World -> string -> Res Response.
Variable find_all_a_href : string -> list string.
Variable html2text_handle : World -> string -> Rendering.
Variable urljoin : string -> string -> Res string.
Variable urlparse_netloc : string -> Res string.
Variables Schema Value Client float : Type.
Variable environ_OPENAI_API_KEY : option string.
Variable OpenAI : option string -> Res Client.
Variable completions_parse :
  World -> Client -> string -> string -> string -> float -> Schema -> Res string.
Variable output_format_build : Schema -> string -> Res Value.

Abbreviation extract_ :=
  (extract net find_all_a_href html2text_handle urljoin urlparse_netloc
           Schema Value Client float environ_OPENAI_API_KEY OpenAI
           completions_parse output_format_build).

(** X20.  With a client and a valid URL, once the crawl has ended, [extract]
    raises [ValueError("Content markdown is empty")] without contacting the
    completion service when no page was stored; otherwise it contacts the
    service once, after the crawl, with the markdown of the crawl as the user
    message, and returns what the schema builds from the answer. *)
Theorem extract_contacts_service_iff_page_stored
    base_url output_format api_key temperature model max_depth fuel w client st md :
  OpenAI (py_or api_key environ_OPENAI_API_KEY) = Ok client →
  valid_url base_url = true →
  crawl_loop net find_all_a_href html2text_handle urljoin urlparse_netloc
             max_depth fuel (crawl_init base_url w) = Some st →
  crawl_result "markdown" st = Markdown md →
  extract_ base_url output_format api_key temperature model max_depth fuel w =
    match content_dict st with
    | [] => Some (Raise (ValueError "Content markdown is empty"), world st)
    | _ :: _ =>
        Some (content ← completions_parse (world st) client model
                "Extract the content from the following markdown" md
                temperature output_format;
              output_format_build output_format content,
              world st ++ [EvCompletion md])
    end.
Proof.
  intros Hclient Hvalid Hloop Hmd.
  pose proof (markdown_empty_iff st md Hmd) as Hempty.
  unfold extract, crawl. rewrite Hclient, Hvalid, Hloop. cbn [negb]. rewrite Hmd.
  destruct (content_dict st) as [|e d].
  - destruct Hempty as [_ ->]; done.
  - destruct (String.eqb_spec (strip md) "") as [Heq|_].
    { by apply Hempty in Heq. }
    unfold chat_completions_parse, mbind, M_bind, of_res, emit, Res_bind.
    by destruct (completions_parse _ _ _ _ _ _ _).
Qed.

(** X21.  With an invalid URL [extract] raises in the world it started in,
    whatever the bound on the loop: the error of the client when the client
    cannot be built, for the client is built first, and otherwise
    [ValueError("Invalid URL: ...")]. *)
Theorem extract_invalid_url_fails_before_any_request
    base_url output_format api_key temperature model max_depth fuel w :
  valid_url base_url = false →
  extract_ base_url output_format api_key temperature model max_depth fuel w =
    Some (Raise (match OpenAI (py_or api_key environ_OPENAI_API_KEY) with
                 | Raise e => e
                 | Ok _ => ValueError ("Invalid URL: " +:+ base_url)
                 end), w).
Proof.
  intros Hvalid. unfold extract, crawl. rewrite Hvalid. cbn.
  by destruct (OpenAI _).
Qed.

End extract_more_facts.

(** ** The code on concrete inputs *)

Example clean_ex1 :
  _clean_markdown ("  a  " +:+ nl +:+ nl +:+ nl +:+ nl +:+ "b " +:+ nl)
  = "a" +:+ nl +:+ nl +:+ "b".
Proof. vm_compute. reflexivity. Qed.

Example netloc_ex1 : Urllib.netloc "https://www.example.com/x?y#z" = "www.example.com".
Proof. reflexivity. Qed.

Example netloc_ex2 : Urllib.netloc "mailto:me@example.com" = "".
Proof. reflexivity. Qed.

Example netloc_ex3 : Urllib.netloc "/about" = "".
Proof. reflexivity. Qed.

(** The two examples of the specification: a link on [www.] is kept, a
    link to another host is not. *)
Example same_domain_www :
  _same_domain Site.urlparse_netloc "https://www.example.com/x" "https://example.com"
  = Ok true.
Proof. reflexivity. Qed.

Example same_domain_other :
  _same_domain Site.urlparse_netloc "https://sub.other.com/x" "https://example.com"
  = Ok false.
Proof. reflexivity. Qed.

(** Two pages that link to each other are crawled once each, and the crawl
    ends. *)
Example site_crawl :
  fst <$> crawl Site.net Site.find_all_a_href Site.html2text_handle
                Urllib.urljoin_absolute Site.urlparse_netloc
                3 Site.root "json" 10 []
  = Some (Ok (Json [(Site.root, "ROOT"); (Site.about, "ABOUT")])).
Proof. vm_compute. reflexivity. Qed.

(** C2 on [spaced_blank_lines].  Deleting the space gives a run of three line
    feeds, after the pass that collapses such runs: the cleaned text still
    has two empty lines, and cleaning it again changes it. *)
Theorem clean_markdown_not_idempotent :
  _clean_markdown spaced_blank_lines = "a" +:+ nl +:+ nl +:+ nl +:+ "b"
  ∧ _clean_markdown (_clean_markdown spaced_blank_lines) = "a" +:+ nl +:+ nl +:+ "b"
  ∧ _clean_markdown (_clean_markdown spaced_blank_lines)
    ≠ _clean_markdown spaced_blank_lines.
Proof. split_and!; [reflexivity|reflexivity|discriminate]. Qed.

(** C3 on the base [https://example.com] and a link to the host
    [exawww.mple.com].  [replace] deletes the [www.] inside the host, so the
    link passes [_same_domain] and [_extract_links] returns it, though the two
    hosts differ also with a leading [www.] ignored. *)
Theorem same_domain_removes_inner_www :
  _same_domain Site.urlparse_netloc "https://exawww.mple.com/x" "https://example.com"
    = Ok true
  ∧ _extract_links (fun _ => ["https://exawww.mple.com/x?q=1#top"])
      Urllib.urljoin_absolute Site.urlparse_netloc "" "https://example.com"
    = Ok ["https://exawww.mple.com/x"]
  ∧ registrable_domain (Urllib.netloc "https://exawww.mple.com/x")
    ≠ registrable_domain (Urllib.netloc "https://example.com").
Proof. split_and!; [reflexivity|reflexivity|discriminate]. Qed.

(** C1 on the site with [max_depth = 0].  The crawl is over after one
    iteration and has requested the root page twice: once in the loop and
    once more, right after, inside [scrape]. *)
Lemma crawl_fetches_root_twice :
  queue (Site.run 0 1) = []
  ∧ fetches_of Site.root (world (Site.run 0 1))
    = [Site.page "ROOT"; Site.page "ROOT"]
  ∧ ¬ at_most_one_fetch (world (Site.run 0 1)).
Proof.
  split_and!; [by vm_compute|by vm_compute|].
  intros H. specialize (H Site.root). vm_compute in H. lia.
Qed.

(** Against C4 as stated: the root page links to itself, the root is visited
    when its links are enqueued, and the link is not put on the queue. *)
Lemma visited_link_not_enqueued :
  _extract_links Site.find_all_a_href Urllib.urljoin_absolute Site.urlparse_netloc
    "ROOT" Site.root = Ok [Site.about; Site.root; Site.about]
  ∧ queue (Site.run 2 1) = [(Site.about, 1); (Site.about, 1)]
  ∧ ¬ every_link_enqueued [Site.about; Site.root; Site.about] 0 (Site.run 2 1).
Proof.
  split_and!; [by vm_compute|by vm_compute|].
  intros H. specialize (H Site.root).
  assert (Hq : queue (Site.run 2 1) = [(Site.about, 1); (Site.about, 1)]) by by vm_compute.
  rewrite Hq in H.
  assert (Hin : Site.root ∈ [Site.about; Site.root; Site.about]) by (right; left).
  apply H in Hin.
  repeat (apply elem_of_cons in Hin as [Hin|Hin]; [discriminate|]).
  by apply elem_of_nil in Hin.
Qed.

(** ** The theorems at concrete inputs *)

Lemma queue_depth_bounded_witness :
  0 ≤ 2
  ∧ Forall (fun e => 0 ≤ e.2 ≤ 2) (queue (Site.run 2 1))
  ∧ ∀ url depth rest,
      queue (Site.run 2 1) = (url, depth) :: rest → (2 <? depth) = false.
Proof.
  split; [lia|].
  apply (queue_depth_bounded Site.net Site.find_all_a_href Site.html2text_handle
           Urllib.urljoin_absolute Site.urlparse_netloc 2 Site.root [] 1).
  lia.
Defined.

Lemma links_enqueued_unless_visited_witness :
(Site.root ∉ visited (crawl_init Site.root []))
  ∧ queue (Site.run 2 1) =
      [] ++ ((fun link => (link, 0 + 1)) <$>
             filter (fun link => link ∉ ({[Site.root]} ∪ visited (crawl_init Site.root [])))
                    [Site.about; Site.root; Site.about]).
Proof.
  split; [apply not_elem_of_empty|].
  eapply (links_enqueued_unless_visited Site.net Site.find_all_a_href
            Site.html2text_handle Urllib.urljoin_absolute Site.urlparse_netloc 2
            (crawl_init Site.root []) Site.root 0 []).
  - reflexivity.
  - apply not_elem_of_empty.
  - lia.
  - vm_compute. reflexivity.
  - reflexivity.
  - reflexivity.
  - vm_compute. reflexivity.
  - vm_compute. reflexivity.
Defined.

Lemma crawl_non_html_is_empty_witness :
  valid_url Site.paper = true
  ∧ ∃ w1, crawl Site.net Site.find_all_a_href Site.html2text_handle
                Urllib.urljoin_absolute Site.urlparse_netloc
                2 Site.paper "markdown" 2 []
          = Some (Ok (Markdown ""), w1).
Proof.
  split; [reflexivity|].
  apply (crawl_non_html_is_empty Site.net Site.find_all_a_href Site.html2text_handle
           Urllib.urljoin_absolute Site.urlparse_netloc 2 Site.paper "markdown" [] 0
           (mkResponse None "application/pdf" "%PDF")); reflexivity.
Defined.

Lemma invalid_url_rejected_witness :
  startswith "http://" "ftp://site.test/" = false
  ∧ startswith "https://" "ftp://site.test/" = false
  ∧ scrape Site.net Site.html2text_handle "ftp://site.test/" []
    = (Raise (ValueError "Error processing ftp://site.test/: Invalid URL: ftp://site.test/"), [])
  ∧ ∀ format_type fuel,
      crawl Site.net Site.find_all_a_href Site.html2text_handle
            Urllib.urljoin_absolute Site.urlparse_netloc
            2 "ftp://site.test/" format_type fuel []
      = Some (Raise (ValueError "Invalid URL: ftp://site.test/"), []).
Proof.
  split; [reflexivity|]. split; [reflexivity|].
  apply (invalid_url_rejected_before_any_request Site.net Site.find_all_a_href
           Site.html2text_handle Urllib.urljoin_absolute Site.urlparse_netloc 2
           "ftp://site.test/" []); reflexivity.
Defined.

Lemma extract_empty_content_witness :
  ∃ w1,
    extract Site.net Site.find_all_a_href Site.html2text_handle
            Urllib.urljoin_absolute Site.urlparse_netloc
            unit string unit unit None Site.OpenAI
            Site.completions_parse Site.output_format_build
            Site.paper tt (Some "sk-test") tt "gpt-4o-mini" 0 2 []
      = Some (Raise (ValueError "Content markdown is empty"), w1)
    ∧ ∃ tr, w1 = [] ++ tr ∧ Forall (fun e => is_completion e = false) tr.
Proof.
  eexists.
  eapply (extract_empty_content_fails_before_completion
            Site.net Site.find_all_a_href Site.html2text_handle
            Urllib.urljoin_absolute Site.urlparse_netloc
            unit string unit unit None Site.OpenAI
            Site.completions_parse Site.output_format_build
            Site.paper tt (Some "sk-test") tt "gpt-4o-mini" 0 2 [] tt "").
  - reflexivity.
  - vm_compute. reflexivity.
  - reflexivity.
Defined.

(** ** The further theorems at concrete inputs *)

Lemma clean_markdown_idempotent_witness :
  str_in space_newline ("a" +:+ nl +:+ nl +:+ nl +:+ nl +:+ "b") = false
  ∧ _clean_markdown ("a" +:+ nl +:+ nl +:+ nl +:+ nl +:+ "b")
    = strip (sub_newlines ("a" +:+ nl +:+ nl +:+ nl +:+ nl +:+ "b"))
  ∧ _clean_markdown (_clean_markdown ("a" +:+ nl +:+ nl +:+ nl +:+ nl +:+ "b"))
    = _clean_markdown ("a" +:+ nl +:+ nl +:+ nl +:+ nl +:+ "b").
Proof.
  split; [reflexivity|].
  apply (clean_markdown_idempotent_when_no_space_before_newline
           ("a" +:+ nl +:+ nl +:+ nl +:+ nl +:+ "b")).
  reflexivity.
Defined.

Lemma same_domain_equivalence_witness :
  _same_domain Site.urlparse_netloc "https://www.site.test/a" "https://www.site.test/a"
    = Ok true
  ∧ _same_domain Site.urlparse_netloc "https://site.test/b" "https://www.site.test/a"
    = Ok true
  ∧ _same_domain Site.urlparse_netloc "https://www.site.test/a" "https://site.test/c"
    = Ok true.
Proof.
  apply (same_domain_is_an_equivalence Site.urlparse_netloc
           "https://www.site.test/a" "https://site.test/b" "https://site.test/c");
    reflexivity.
Defined.

Lemma same_domain_leading_www_witness :
  _same_domain Site.urlparse_netloc "https://site.test/" "https://www.site.test/"
    = Ok true
  ∧ _same_domain Site.urlparse_netloc "https://www.site.test/" "https://site.test/"
    = Ok true.
Proof.
  apply (same_domain_ignores_leading_www Site.urlparse_netloc
           "https://site.test/" "https://www.site.test/" "site.test");
    reflexivity.
Defined.

Lemma extract_links_clean_witness :
  Forall (fun link => _same_domain Site.urlparse_netloc link Site.root = Ok true
                      ∧ char_in "#" link = false ∧ char_in "?" link = false)
         [Site.about; Site.root; Site.about].
Proof.
  apply (extract_links_returns_clean_same_domain_links Site.find_all_a_href
           Urllib.urljoin_absolute Site.urlparse_netloc "ROOT" Site.root).
  reflexivity.
Defined.

Lemma extract_links_order_witness :
  [Site.about; Site.root; Site.about]
  = List.filter (passes_same_domain Site.urlparse_netloc Site.root)
      (omap (resolve_href Urllib.urljoin_absolute Site.root)
            (List.filter kept_href (Site.find_all_a_href "ROOT"))).
Proof.
  apply (extract_links_keeps_order_and_repetitions Site.find_all_a_href
           Urllib.urljoin_absolute Site.urlparse_netloc "ROOT" Site.root).
  reflexivity.
Defined.

Lemma crawl_negative_depth_witness :
  crawl Site.net Site.find_all_a_href Site.html2text_handle
        Urllib.urljoin_absolute Site.urlparse_netloc
        (-1) Site.root "json" 2 []
  = Some (Ok (Json []), []).
Proof.
  apply (crawl_negative_depth_fetches_nothing Site.net Site.find_all_a_href
           Site.html2text_handle Urllib.urljoin_absolute Site.urlparse_netloc
           (-1) Site.root "json" 0 []); [reflexivity|lia].
Defined.

Lemma crawl_unreachable_base_witness :
  crawl Site.net Site.find_all_a_href Site.html2text_handle
        Urllib.urljoin_absolute Site.urlparse_netloc
        2 "https://site.test/missing" "markdown" 2 []
  = Some (Ok (Markdown ""),
          at_request [] "https://site.test/missing" 0
          ++ [EvGet "https://site.test/missing"
                (Site.net (at_request [] "https://site.test/missing" 0)
                          "https://site.test/missing")]).
Proof.
  apply (crawl_unreachable_base_is_empty Site.net Site.find_all_a_href
           Site.html2text_handle Urllib.urljoin_absolute Site.urlparse_netloc
           2 "https://site.test/missing" "markdown" 0 []);
    [reflexivity|lia|exact I].
Defined.

Lemma extract_contacts_service_witness :
  ∃ md,
    extract Site.net Site.find_all_a_href Site.html2text_handle
            Urllib.urljoin_absolute Site.urlparse_netloc
            unit string unit unit None Site.OpenAI
            Site.completions_parse Site.output_format_build
            Site.root tt (Some "sk-test") tt "gpt-4o-mini" 1 10 []
    = Some (Ok "{}", world (Site.run 1 3) ++ [EvCompletion md]).
Proof.
  eexists.
  refine (eq_trans
            (extract_contacts_service_iff_page_stored
               Site.net Site.find_all_a_href Site.html2text_handle
               Urllib.urljoin_absolute Site.urlparse_netloc
               unit string unit unit None Site.OpenAI
               Site.completions_parse Site.output_format_build
               Site.root tt (Some "sk-test") tt "gpt-4o-mini" 1 10 [] tt
               (Site.run 1 3) _ _ _ _ _) _).
  - reflexivity.
  - reflexivity.
  - vm_compute. reflexivity.
  - vm_compute. reflexivity.
  - vm_compute. reflexivity.
Defined.

Lemma extract_invalid_url_witness :
  extract Site.net Site.find_all_a_href Site.html2text_handle
          Urllib.urljoin_absolute Site.urlparse_netloc
          unit string unit unit None Site.OpenAI
          Site.completions_parse Site.output_format_build
          "ftp://site.test/" tt (Some "sk-test") tt "gpt-4o-mini" 0 0 []
  = Some (Raise (ValueError "Invalid URL: ftp://site.test/"), []).
Proof.
  apply (extract_invalid_url_fails_before_any_request
           Site.net Site.find_all_a_href Site.html2text_handle
           Urllib.urljoin_absolute Site.urlparse_netloc
           unit string unit unit None Site.OpenAI
           Site.completions_parse Site.output_format_build
           "ftp://site.test/" tt (Some "sk-test") tt "gpt-4o-mini" 0 0 []).
  reflexivity.
Defined.
